(** * Resize / reallocation orchestration of the partition manager

    A shallow embedding of the partition-management core of the toolkit:
    the space reallocation planner, the resize validator, the resize
    transaction ([ResizeOperation::execute]), the in-flight registry and the
    two confirmation dialogs of the user interface.

    [ResizeOperation::execute], the two dialogs and the types of the plan are
    taken from the sources.  The planner, the validator, the transaction
    bookkeeping and the registry have no source file among them; they are
    modelled from the specification and marked as such.

    Sizes and offsets are byte counts, kept in [Z]: on a snapshot that
    respects [used_space <= total_size] and keeps every partition inside its
    disk no sum below leaves the range of [u64].  Text is [string]. *)

From Stdlib Require Import ZArith QArith Qround Lia Lqa List Bool Ascii String Sorted.
From stdpp Require Import base option list strings gmap pretty.

Open Scope string_scope.
Open Scope list_scope.
Open Scope Z_scope.

(** ** Byte units and their rendering *)

Definition GB : Z := 1024 * 1024 * 1024.

(** Two decimals of a byte count expressed in GB (the [{:.2} GB] rendering of
    the plan texts), rounded to the nearest hundredth. *)
Definition two_digits (n : Z) : string :=
  if n <? 10 then "0" +:+ pretty n else pretty n.

Definition format_gb (bytes : Z) : string :=
  let hundredths := (bytes * 100 + GB / 2) / GB in
  pretty (hundredths / 100) +:+ "." +:+ two_digits (hundredths mod 100).

(** ** Disk layout snapshot *)

Module Snapshot.

Inductive FilesystemKind := NTFS | Ext4 | FAT32 | ExFAT | UnknownFs.

(** Modelled from the spec: the snapshot of one partition (the type that the
    disk-enumeration collaborator supplies is not part of the sources). *)
Record PartitionSnapshot := {
  identifier : string;
  disk_identifier : string;
  label : string;
  start_offset : Z;
  total_size : Z;
  used_space : Z;
  filesystem_kind : FilesystemKind;
  is_system : bool;
  is_boot : bool;
  is_efi : bool;
  mounted : bool
}.

(** A free-space region of the disk: start offset and length. *)
Record FreeRegion := {
  region_start : Z;
  region_size : Z
}.

(** Modelled from the spec: the layout snapshot, with the alignment unit and
    the online-resize capabilities of each filesystem kind. *)
Record DiskLayoutSnapshot := {
  partitions : list PartitionSnapshot;
  free_regions : list FreeRegion;
  alignment_unit : Z;
  online_shrink_supported : FilesystemKind -> bool;
  online_grow_supported : FilesystemKind -> bool
}.

Definition partition_end (p : PartitionSnapshot) : Z :=
  start_offset p + total_size p.

(** System, boot and EFI partitions are protected. *)
Definition protected (p : PartitionSnapshot) : bool :=
  is_system p || is_boot p || is_efi p.

Definition find_partition (snap : DiskLayoutSnapshot) (pid : string)
  : option PartitionSnapshot :=
  List.find (fun p => String.eqb (identifier p) pid) (partitions snap).

End Snapshot.

(** ** Space reallocation planner *)

Module Planner.
Import Snapshot.

(** The types of the plan, as the API reference and the printed result of
    the feature guide give them. *)
Inductive SourceAction := DeleteEntirely.

Record SourcePartitionPlan := {
  partition_id : string;
  partition_label : string;
  current_size : Z;
  used_space : Z;
  action : SourceAction
}.

Inductive StepActionType := UserManual | AppAutomated | AppAssistedManual.

Record ReallocationStep := {
  step_number : nat;
  title : string;
  description : string;
  action_type : StepActionType;
  can_automate : bool
}.

Record ReallocationPlan := {
  target_partition_id : string;
  source_partitions : list SourcePartitionPlan;
  total_space_freed : Z;
  target_new_size : Z;
  steps : list ReallocationStep;
  warnings : list string
}.

Inductive PlanError := NotFound | InvalidArgument.

(** Modelled from the spec: partitions in physical order (insertion sort on
    the start offset). *)
Fixpoint insert_by_offset (p : PartitionSnapshot) (l : list PartitionSnapshot)
  : list PartitionSnapshot :=
  match l with
  | [] => [p]
  | q :: l' =>
      if start_offset p <=? start_offset q then p :: q :: l'
      else q :: insert_by_offset p l'
  end.

Definition physical_order (l : list PartitionSnapshot) : list PartitionSnapshot :=
  foldr insert_by_offset [] l.

(** Modelled from the spec: the partitions of the target's disk that start
    at or after the target's end, in physical order. *)
Definition following (snap : DiskLayoutSnapshot) (target : PartitionSnapshot)
  : list PartitionSnapshot :=
  physical_order
    (List.filter
       (fun p => String.eqb (disk_identifier p) (disk_identifier target)
                 && negb (String.eqb (identifier p) (identifier target))
                 && (partition_end target <=? start_offset p))
       (partitions snap)).

(** Modelled from the spec: the walk of the planner (its source file is not
    part of the sources).  Starting right after the target, each adjacent
    partition is consumed whole until the freed space reaches the desired
    amount; a gap or a protected partition stops the walk. *)
Fixpoint walk (desired cursor freed : Z) (ps : list PartitionSnapshot)
  : list PartitionSnapshot :=
  match ps with
  | [] => []
  | p :: rest =>
      if desired <=? freed then []
      else if negb (start_offset p =? cursor) then []
      else if protected p then []
      else p :: walk desired (partition_end p) (freed + total_size p) rest
  end.

(** Modelled from the spec: the helpers of the planner, from here to
    [make_warnings] (source entries, freed space, step list, warnings).  The
    texts follow the printed result of the feature guide. *)
Definition to_source (p : PartitionSnapshot) : SourcePartitionPlan :=
  {| partition_id := identifier p;
     partition_label := label p;
     current_size := total_size p;
     used_space := Snapshot.used_space p;
     action := DeleteEntirely |}.

Definition freed_space (sources : list SourcePartitionPlan) : Z :=
  foldr (fun s acc => current_size s + acc) 0 sources.

(** [steps.push] with the next sequence number. *)
Definition push_step (acc : list ReallocationStep) (t d : string)
    (a : StepActionType) (c : bool) : list ReallocationStep :=
  acc ++ [ {| step_number := S (length acc); title := t; description := d;
              action_type := a; can_automate := c |} ].

Definition has_data (s : SourcePartitionPlan) : bool := 0 <? used_space s.

Definition backup_warning (s : SourcePartitionPlan) : string :=
  "Partition " +:+ partition_label s +:+ " contains "
    +:+ format_gb (used_space s)
    +:+ " GB of data. YOU MUST BACKUP THIS DATA before proceeding!".

Definition shortfall_warning (desired freed : Z) : string :=
  "Only " +:+ format_gb freed +:+ " GB of the requested "
    +:+ format_gb desired +:+ " GB can be freed from adjacent partitions.".

Definition backup_title : string := "⚠️ BACKUP YOUR DATA".

Definition backup_description (s : SourcePartitionPlan) : string :=
  "The following partitions will be deleted: " +:+ partition_label s.

Definition delete_title (s : SourcePartitionPlan) : string :=
  "Delete partition " +:+ partition_label s.

Definition delete_description (s : SourcePartitionPlan) : string :=
  "Delete " +:+ partition_label s +:+ " (frees "
    +:+ format_gb (current_size s) +:+ " GB of space)".

Definition expand_title (target : PartitionSnapshot) : string :=
  "Expand " +:+ label target.

Definition expand_description (target : PartitionSnapshot) (new_size : Z) : string :=
  "Expand " +:+ label target +:+ " from " +:+ format_gb (total_size target)
    +:+ " GB to " +:+ format_gb new_size +:+ " GB (+"
    +:+ format_gb (new_size - total_size target) +:+ " GB)".

Definition push_backup (acc : list ReallocationStep) (s : SourcePartitionPlan)
  : list ReallocationStep :=
  if has_data s
  then push_step acc backup_title (backup_description s) UserManual false
  else acc.

Definition push_delete (acc : list ReallocationStep) (s : SourcePartitionPlan)
  : list ReallocationStep :=
  push_step acc (delete_title s) (delete_description s) AppAssistedManual true.

(** Modelled from the spec: step generation.  Backup steps for the sources
    that hold data come first, then one delete step per source, then the
    expansion of the target; numbers run across the whole list. *)
Definition make_steps (target : PartitionSnapshot)
    (sources : list SourcePartitionPlan) (new_size : Z) : list ReallocationStep :=
  let backups := foldl push_backup [] sources in
  let deletes := foldl push_delete backups sources in
  push_step deletes (expand_title target) (expand_description target new_size)
    AppAutomated true.

Definition make_warnings (sources : list SourcePartitionPlan)
    (desired freed : Z) : list string :=
  List.map backup_warning (List.filter has_data sources)
    ++ (if freed <? desired then [shortfall_warning desired freed] else []).

(** Modelled from the spec: the planner over a given snapshot (the source of
    [create_space_reallocation_plan] is not part of the sources; its
    signature, a call and a printed result are). *)
Definition plan_reallocation (snap : DiskLayoutSnapshot)
    (target_id : string) (desired_additional_space : Z)
  : PlanError + ReallocationPlan :=
  match find_partition snap target_id with
  | None => inl NotFound
  | Some target =>
      if desired_additional_space <=? 0 then inl InvalidArgument
      else
        let sources :=
          List.map to_source
            (walk desired_additional_space (partition_end target) 0
               (following snap target)) in
        let freed := freed_space sources in
        let new_size :=
          total_size target + Z.min desired_additional_space freed in
        inr {| target_partition_id := identifier target;
               source_partitions := sources;
               total_space_freed := freed;
               target_new_size := new_size;
               steps := make_steps target sources new_size;
               warnings := make_warnings sources desired_additional_space freed |}
  end.



(** Modelled from the spec: the command
    [create_space_reallocation_plan(target_partition_id,
    desired_additional_space)] takes no snapshot argument: it asks the
    disk-enumeration collaborator for the current one and computes the plan
    over it.  A run carries the system and the log of the collaborator
    operations invoked so far. *)
Section Command.
Context {System : Type}.
Variable get_disk_layout_snapshot : System -> DiskLayoutSnapshot * System.


End Command.

(** *** The documented example

    Disk [[C: 50GB full] [E: 20GB, 5GB used] [F: 30GB]]. *)

Definition mk_partition (pid lbl : string) (start size used : Z)
  : PartitionSnapshot :=
  {| identifier := pid; disk_identifier := "disk-0"; label := lbl;
     start_offset := start; total_size := size; Snapshot.used_space := used;
     filesystem_kind := NTFS; is_system := false; is_boot := false;
     is_efi := false; mounted := true |}.

Definition example_disk : DiskLayoutSnapshot :=
  {| partitions :=
       [ mk_partition "partition-0-1" "C:" 0 (50 * GB) (50 * GB);
         mk_partition "partition-0-2" "E:" (50 * GB) (20 * GB) (5 * GB);
         mk_partition "partition-0-3" "F:" (70 * GB) (30 * GB) 0 ];
     free_regions := [];
     alignment_unit := 4096;
     online_shrink_supported := fun _ => false;
     online_grow_supported := fun _ => true |}.

(** The result printed for
    [create_space_reallocation_plan("partition-0-1", 15GB)] in the feature
    guide, field by field. *)
Definition documented_plan : ReallocationPlan :=
  {| target_partition_id := "partition-0-1";
     source_partitions :=
       [ {| partition_id := "partition-0-2";
            partition_label := "E:";
            current_size := 21474836480;
            used_space := 5368709120;
            action := DeleteEntirely |} ];
     total_space_freed := 21474836480;
     target_new_size := 75161927680;
     steps :=
       [ {| step_number := 1;
            title := "⚠️ BACKUP YOUR DATA";
            description := "The following partitions will be deleted: E:...";
            action_type := UserManual;
            can_automate := false |};
         {| step_number := 2;
            title := "Delete partition E:";
            description := "Delete E: (frees 20.00 GB of space)";
            action_type := AppAssistedManual;
            can_automate := true |};
         {| step_number := 3;
            title := "Expand C:";
            description := "Expand C: from 50.00 GB to 65.00 GB (+15.00 GB)";
            action_type := AppAutomated;
            can_automate := true |} ];
     warnings :=
       [ "Partition E: (Data) contains 5.00 GB of data. YOU MUST BACKUP THIS DATA before proceeding!" ] |}.

(** The plan of the model for the documented request. *)
Definition example_plan : ReallocationPlan :=
  {| target_partition_id := "partition-0-1";
     source_partitions :=
       [ {| partition_id := "partition-0-2";
            partition_label := "E:";
            current_size := 20 * GB;
            used_space := 5 * GB;
            action := DeleteEntirely |} ];
     total_space_freed := 20 * GB;
     target_new_size := 65 * GB;
     steps :=
       [ {| step_number := 1;
            title := "⚠️ BACKUP YOUR DATA";
            description := "The following partitions will be deleted: E:";
            action_type := UserManual;
            can_automate := false |};
         {| step_number := 2;
            title := "Delete partition E:";
            description := "Delete E: (frees 20.00 GB of space)";
            action_type := AppAssistedManual;
            can_automate := true |};
         {| step_number := 3;
            title := "Expand C:";
            description := "Expand C: from 50.00 GB to 65.00 GB (+15.00 GB)";
            action_type := AppAutomated;
            can_automate := true |} ];
     warnings :=
       [ "Partition E: contains 5.00 GB of data. YOU MUST BACKUP THIS DATA before proceeding!" ] |}.

End Planner.

(** ** Resize operation *)

Module Resize.
Import Snapshot.

(** [struct ResizeOperation] of the implementation plan. *)
Record ResizeOperation := {
  partition_id : string;
  device_path : string;
  current_size : Z;
  target_size : Z;
  filesystem_type : FilesystemKind
}.

(** Modelled from the spec: the bodies of [is_shrinking] and [is_growing] are
    not part of the sources; the direction is read off the two sizes of the
    operation. *)
Definition is_shrinking (self : ResizeOperation) : bool :=
  target_size self <? current_size self.

Definition is_growing (self : ResizeOperation) : bool :=
  current_size self <? target_size self.

End Resize.

(** ** Resize validator *)

Module Validator.
Import Snapshot Resize.

(** Modelled from the spec: the validator as a whole (section 4.2 and the
    error taxonomy of section 7); its source file is not part of the
    sources. *)
Inductive Direction := Grow | Shrink.

Inductive ValidationError :=
  | NotFound
  | ProtectedPartition
  | InsufficientSpace (min_safe_size : Z)
  | NoAdjacentSpace
  | ResourceBusy
  | AlignmentError (suggested_size : Z).

(** The validated request: the operation, its direction and its safe size. *)
Record Approved := {
  operation : ResizeOperation;
  direction : Direction;
  safe_size : Z
}.

(** Modelled from the spec: the safety margin is a configurable fraction; it
    is kept as an exact rational. *)
Record Config := {
  safety_margin : Q
}.

Definition direction_of (p : PartitionSnapshot) (target : Z) : Direction :=
  if target <? total_size p then Shrink else Grow.

(** Modelled from the spec: [used_space * (1 + safety_margin)], as a rational
    number of bytes. *)
Definition required_space (cfg : Config) (used : Z) : Q :=
  (inject_Z used * (1 + safety_margin cfg))%Q.

(** The least whole number of bytes that satisfies the shrink bound. *)
Definition min_safe_size (cfg : Config) (used : Z) : Z :=
  Qceiling (required_space cfg used).

(** Modelled from the spec: unallocated space that starts exactly at the end
    of the partition. *)
Definition adjacent_free (snap : DiskLayoutSnapshot) (p : PartitionSnapshot) : Z :=
  match List.find (fun r => region_start r =? partition_end p) (free_regions snap) with
  | Some r => region_size r
  | None => 0
  end.

Definition max_grow_size (snap : DiskLayoutSnapshot) (p : PartitionSnapshot) : Z :=
  total_size p + adjacent_free snap p.

Definition online_resize_supported (snap : DiskLayoutSnapshot)
    (d : Direction) (fs : FilesystemKind) : bool :=
  match d with
  | Shrink => online_shrink_supported snap fs
  | Grow => online_grow_supported snap fs
  end.

Definition aligned (unit offset : Z) : bool := offset mod unit =? 0.

(** The size whose end offset is the multiple of the unit nearest to the
    requested end. *)
Definition nearest_aligned_size (unit start target : Z) : Z :=
  ((start + target + unit / 2) / unit) * unit - start.

(** Modelled from the spec: [validate_resize] (its source file is not part of
    the sources; two of its tests are).  The six checks run in the order of
    the contract and the first failure is the result. *)
Definition validate_resize (cfg : Config) (snap : DiskLayoutSnapshot)
    (pid : string) (target : Z) (override_protected : bool)
  : ValidationError + Approved :=
  match find_partition snap pid with
  | None => inl NotFound
  | Some p =>
      let d := direction_of p target in
      if protected p && negb override_protected then inl ProtectedPartition
      else if match d with
              | Shrink => negb (Qle_bool (required_space cfg (used_space p)) (inject_Z target))
              | Grow => false
              end
      then inl (InsufficientSpace (min_safe_size cfg (used_space p)))
      else if match d with
              | Grow => max_grow_size snap p <? target
              | Shrink => false
              end
      then inl NoAdjacentSpace
      else if mounted p && negb (online_resize_supported snap d (filesystem_kind p))
      then inl ResourceBusy
      else if negb (aligned (alignment_unit snap) (start_offset p)
                    && aligned (alignment_unit snap) (start_offset p + target))
      then inl (AlignmentError
                  (nearest_aligned_size (alignment_unit snap) (start_offset p) target))
      else
        inr {| operation :=
                 {| partition_id := identifier p;
                    device_path := identifier p;
                    current_size := total_size p;
                    target_size := target;
                    filesystem_type := filesystem_kind p |};
               direction := d;
               safe_size :=
                 match d with
                 | Shrink => Z.max target (min_safe_size cfg (used_space p))
                 | Grow => Z.min target (max_grow_size snap p)
                 end |}
  end.

(** The two helpers exercised by the test suite of the implementation plan. *)
Definition calculate_safe_shrink_size (cfg : Config) (p : PartitionSnapshot) : Z :=
  min_safe_size cfg (used_space p).

Definition validate_shrink_to (cfg : Config) (p : PartitionSnapshot) (target : Z)
  : ValidationError + unit :=
  if Qle_bool (required_space cfg (used_space p)) (inject_Z target)
  then inr tt
  else inl (InsufficientSpace (min_safe_size cfg (used_space p))).

(** A data partition E: of 20GB with 5GB used, not mounted. *)
Definition partition_e : PartitionSnapshot :=
  {| identifier := "E"; disk_identifier := "disk-0"; label := "E:";
     start_offset := 50 * GB; total_size := 20 * GB; used_space := 5 * GB;
     filesystem_kind := NTFS; is_system := false; is_boot := false;
     is_efi := false; mounted := false |}.

Definition disk_with_e : DiskLayoutSnapshot :=
  {| partitions := [partition_e];
     free_regions := [];
     alignment_unit := 4096;
     online_shrink_supported := fun _ => false;
     online_grow_supported := fun _ => true |}.

Definition margin_10 : Config := {| safety_margin := 1 # 10 |}.
Definition margin_20 : Config := {| safety_margin := 2 # 10 |}.

End Validator.

(** ** Resize transaction engine *)

Module Engine.
Import Snapshot Resize.

(** The fallible operations [execute] invokes, in the vocabulary of the
    source. *)
Inductive Call :=
  | ValidatePreconditions
  | CalculateSafeResizeSize
  | RequireBackupConfirmation
  | TransactionBegin
  | ResizeFilesystem (size : Z)
  | ResizePartitionTable (size : Z)
  | VerifyIntegrity
  | TransactionCommit.

(** What an execution leaves behind: the outcome of each invocation, the
    progress events, and the invocations of [transaction.rollback()]. *)
Inductive Event :=
  | Invoked (c : Call) (ok : bool)
  | Progress (percent : Z) (status : string)
  | Rollback.

Inductive ResizeResult := success.

(** The collaborators of [execute] (none of their bodies is part of the
    sources): every one is an opaque operation on the outside world that
    answers with a value or an error. *)
Record Tools (World Error Transaction : Type) := {
  validate_preconditions : ResizeOperation -> World -> (Error + unit) * World;
  calculate_safe_resize_size : ResizeOperation -> World -> (Error + Z) * World;
  require_backup_confirmation : ResizeOperation -> World -> (Error + unit) * World;
  transaction_begin : ResizeOperation -> World -> (Error + Transaction) * World;
  resize_filesystem : ResizeOperation -> Z -> World -> (Error + unit) * World;
  resize_partition_table : ResizeOperation -> Z -> World -> (Error + unit) * World;
  verify_integrity : ResizeOperation -> World -> (Error + unit) * World;
  transaction_commit : Transaction -> World -> (Error + unit) * World;
  transaction_rollback : Transaction -> World -> Error * World
}.

Arguments validate_preconditions {World Error Transaction}.
Arguments calculate_safe_resize_size {World Error Transaction}.
Arguments require_backup_confirmation {World Error Transaction}.
Arguments transaction_begin {World Error Transaction}.
Arguments resize_filesystem {World Error Transaction}.
Arguments resize_partition_table {World Error Transaction}.
Arguments verify_integrity {World Error Transaction}.
Arguments transaction_commit {World Error Transaction}.
Arguments transaction_rollback {World Error Transaction}.

Section Execute.
Context {World Error Transaction : Type}.
Variable tools : Tools World Error Transaction.

(** State of a run: the outside world and the events so far. *)
Definition Run : Type := World * list Event.

(** Computations that may stop with an error ([?] of the source). *)
Definition M (A : Type) : Type := Run -> (Error + A) * Run.

Definition ret {A} (a : A) : M A := fun st => (inr a, st).

Definition bind {A B} (m : M A) (k : A -> M B) : M B :=
  fun st =>
    match m st with
    | (inl e, st') => (inl e, st')
    | (inr a, st') => k a st'
    end.

Definition is_ok {A} (r : Error + A) : bool :=
  match r with inr _ => true | inl _ => false end.

(** Invoke a collaborator and record its outcome. *)
Definition call {A} (c : Call) (op : World -> (Error + A) * World) : M A :=
  fun st =>
    let '(r, w) := op (fst st) in
    (r, (w, snd st ++ [Invoked c (is_ok r)])).

Definition emit_progress (percent : Z) (status : string) : M unit :=
  fun st => (inr tt, (fst st, snd st ++ [Progress percent status])).

(** [m.map_err(|e| transaction.rollback())]: when [m] fails, the rollback
    runs and what it returns replaces the error. *)
Definition map_err_rollback {A} (transaction : Transaction) (m : M A) : M A :=
  fun st =>
    match m st with
    | (inl _, st') =>
        let '(e, w) := transaction_rollback tools transaction (fst st') in
        (inl e, (w, snd st' ++ [Rollback]))
    | (inr a, st') => (inr a, st')
    end.

Notation "x <- m ;; k" := (bind m (fun x => k))
  (at level 100, m at next level, right associativity).
Notation "m ;;; k" := (bind m (fun _ => k))
  (at level 100, right associativity).

(** [ResizeOperation::execute]. *)
Definition execute (self : ResizeOperation) : M ResizeResult :=
  (* Phase 1: Pre-flight Safety Checks (5%) *)
  call ValidatePreconditions (validate_preconditions tools self) ;;;
  emit_progress 5 "Validation complete" ;;;
  (* Phase 2: Calculate Safe Size (10%) *)
  safe_size <- call CalculateSafeResizeSize (calculate_safe_resize_size tools self) ;;
  emit_progress 10 "Size calculation complete" ;;;
  (* Phase 3: Backup Verification (15%) *)
  call RequireBackupConfirmation (require_backup_confirmation tools self) ;;;
  emit_progress 15 "Backup confirmed" ;;;
  (* Phase 4: Create Transaction Snapshot (20%) *)
  transaction <- call TransactionBegin (transaction_begin tools self) ;;
  emit_progress 20 "Transaction started" ;;;
  (* Phase 5: Filesystem Resize - Step 1 (30-60%) *)
  (if is_shrinking self then
     map_err_rollback transaction
       (call (ResizeFilesystem safe_size) (resize_filesystem tools self safe_size)) ;;;
     emit_progress 60 "Filesystem shrunk"
   else ret tt) ;;;
  (* Phase 6: Partition Table Update (60-70%) *)
  map_err_rollback transaction
    (call (ResizePartitionTable safe_size) (resize_partition_table tools self safe_size)) ;;;
  emit_progress 70 "Partition table updated" ;;;
  (* Phase 7: Filesystem Resize - Step 2 (70-90%) *)
  (if is_growing self then
     map_err_rollback transaction
       (call (ResizeFilesystem safe_size) (resize_filesystem tools self safe_size)) ;;;
     emit_progress 90 "Filesystem expanded"
   else ret tt) ;;;
  (* Phase 8: Verification (90-95%) *)
  map_err_rollback transaction
    (call VerifyIntegrity (verify_integrity tools self)) ;;;
  emit_progress 95 "Integrity verified" ;;;
  (* Phase 9: Commit Transaction (100%) *)
  call TransactionCommit (transaction_commit tools transaction) ;;;
  emit_progress 100 "Resize complete" ;;;
  ret success.

(** A run from a given world, with an empty event list. *)
Definition run_execute (self : ResizeOperation) (w : World)
  : (Error + ResizeResult) * Run :=
  execute self (w, []).

Definition result_of (self : ResizeOperation) (w : World) : Error + ResizeResult :=
  fst (run_execute self w).

Definition world_of (self : ResizeOperation) (w : World) : World :=
  fst (snd (run_execute self w)).

Definition trace_of (self : ResizeOperation) (w : World) : list Event :=
  snd (snd (run_execute self w)).

End Execute.

(** *** Reading a trace *)

(** The forward states of the transaction state machine, one per phase of
    [execute]. *)
Inductive Phase :=
  | Validating
  | SafeSizeCalculated
  | BackupConfirmed
  | TransactionOpen
  | FilesystemResized
  | PartitionTableUpdated
  | Verifying
  | Committed.

Definition phase_of_call (c : Call) : Phase :=
  match c with
  | ValidatePreconditions => Validating
  | CalculateSafeResizeSize => SafeSizeCalculated
  | RequireBackupConfirmation => BackupConfirmed
  | TransactionBegin => TransactionOpen
  | ResizeFilesystem _ => FilesystemResized
  | ResizePartitionTable _ => PartitionTableUpdated
  | VerifyIntegrity => Verifying
  | TransactionCommit => Committed
  end.

(** The operations that completed, in order. *)
Fixpoint completed (tr : list Event) : list Call :=
  match tr with
  | [] => []
  | Invoked c true :: tr' => c :: completed tr'
  | _ :: tr' => completed tr'
  end.

(** The phases a run went through: one per completed operation. *)
Definition phases (tr : list Event) : list Phase :=
  List.map phase_of_call (completed tr).

(** The percentages of the progress events, in emission order. *)
Fixpoint percentages (tr : list Event) : list Z :=
  match tr with
  | [] => []
  | Progress p _ :: tr' => p :: percentages tr'
  | _ :: tr' => percentages tr'
  end.

(** The percentages [execute] emits when every phase completes. *)
Definition reference_percentages (self : ResizeOperation) : list Z :=
  [5; 10; 15; 20]
    ++ (if is_shrinking self then [60] else [])
    ++ [70]
    ++ (if is_growing self then [90] else [])
    ++ [95; 100].

(** No [Transaction::begin] is invoked before a successful backup
    confirmation. *)
Fixpoint acknowledged_before_open (tr : list Event) : bool :=
  match tr with
  | [] => true
  | Invoked RequireBackupConfirmation true :: _ => true
  | Invoked TransactionBegin _ :: _ => false
  | _ :: tr' => acknowledged_before_open tr'
  end.

(** Every completed operation is followed at once by one progress event,
    every progress event follows a completed operation, and a failed
    operation ends the forward run (with or without a rollback). *)
Fixpoint one_event_per_phase (tr : list Event) : bool :=
  match tr with
  | [] => true
  | Invoked _ true :: Progress _ _ :: tr' => one_event_per_phase tr'
  | [Invoked _ false] => true
  | [Invoked _ false; Rollback] => true
  | _ => false
  end.

End Engine.

(** ** Checkpointed transactions over a disk

    One world for [execute] to run in: a disk, tools whose failures are
    injected, and the transaction bookkeeping of the specification. *)

Module DiskWorld.
Import Resize Engine.

(** What a fresh snapshot reports of the partition under resize. *)
Record Disk := {
  extent : Z;
  filesystem_size : Z
}.

(** Modelled from the spec: a checkpoint holds the value its phase is about
    to overwrite (the transaction type is not part of the sources). *)
Inductive Checkpoint :=
  | FilesystemCheckpoint (pre : Z)
  | TableCheckpoint (pre : Z).

Inductive TerminalState := Pending | Committed | RolledBack | Failed.

Inductive EngineError :=
  | PreconditionFailed
  | BackupNotConfirmed
  | BeginFailed
  | ExternalToolFailure
  | VerificationMismatch
  | CommitFailed
  | OperationRolledBack
  | RollbackFailed.

(** An external tool either does its work or fails, leaving some value
    behind. *)
Inductive Outcome := Succeeds | FailsLeaving (partial : Z).

(** The failures injected into one run.  [compensation_fails i] tells whether
    the [i]-th compensating action of a rollback fails. *)
Record Faults := {
  preconditions_fail : bool;
  backup_acknowledged : bool;
  begin_fails : bool;
  filesystem_tool : Outcome;
  table_tool : Outcome;
  verification_fails : bool;
  commit_fails : bool;
  compensation_fails : nat -> bool
}.

Record World := {
  disk : Disk;
  checkpoints : list Checkpoint;
  terminal : TerminalState;
  faults : Faults
}.

Definition with_disk (w : World) (d : Disk) : World :=
  {| disk := d; checkpoints := checkpoints w; terminal := terminal w;
     faults := faults w |}.

Definition with_terminal (w : World) (t : TerminalState) : World :=
  {| disk := disk w; checkpoints := checkpoints w; terminal := t;
     faults := faults w |}.

(** Checkpoints are only ever appended. *)
Definition record_checkpoint (w : World) (c : Checkpoint) : World :=
  {| disk := disk w; checkpoints := checkpoints w ++ [c];
     terminal := terminal w; faults := faults w |}.

Definition set_filesystem_size (d : Disk) (z : Z) : Disk :=
  {| extent := extent d; filesystem_size := z |}.

Definition set_extent (d : Disk) (z : Z) : Disk :=
  {| extent := z; filesystem_size := filesystem_size d |}.

(** Modelled from the spec: the compensating action of a checkpoint puts the
    saved value back. *)
Definition compensate (c : Checkpoint) (d : Disk) : Disk :=
  match c with
  | FilesystemCheckpoint pre => set_filesystem_size d pre
  | TableCheckpoint pre => set_extent d pre
  end.

(** Modelled from the spec: run the compensating actions of [cs] in the given
    order, numbering them from [i]; stop at the first one that fails. *)
Fixpoint replay (fails : nat -> bool) (i : nat) (cs : list Checkpoint) (d : Disk)
  : bool * Disk :=
  match cs with
  | [] => (true, d)
  | c :: rest =>
      if fails i then (false, d)
      else replay fails (S i) rest (compensate c d)
  end.

(** A forward write, the checkpoint taken before it, and a sequence of
    checkpointed writes. *)
Inductive Write := WriteFilesystem (z : Z) | WriteTable (z : Z).

Definition pre_image (wr : Write) (d : Disk) : Checkpoint :=
  match wr with
  | WriteFilesystem _ => FilesystemCheckpoint (filesystem_size d)
  | WriteTable _ => TableCheckpoint (extent d)
  end.

Definition write (wr : Write) (d : Disk) : Disk :=
  match wr with
  | WriteFilesystem z => set_filesystem_size d z
  | WriteTable z => set_extent d z
  end.

Fixpoint perform (ws : list Write) (cps : list Checkpoint) (d : Disk)
  : list Checkpoint * Disk :=
  match ws with
  | [] => (cps, d)
  | wr :: rest => perform rest (cps ++ [pre_image wr d]) (write wr d)
  end.

Definition validate_preconditions (self : ResizeOperation) (w : World)
  : (EngineError + unit) * World :=
  if preconditions_fail (faults w) then (inl PreconditionFailed, w)
  else (inr tt, w).

Definition calculate_safe_resize_size (self : ResizeOperation) (w : World)
  : (EngineError + Z) * World :=
  (inr (target_size self), w).

Definition require_backup_confirmation (self : ResizeOperation) (w : World)
  : (EngineError + unit) * World :=
  if backup_acknowledged (faults w) then (inr tt, w)
  else (inl BackupNotConfirmed, w).

(** Modelled from the spec: [Transaction::begin] (its body is not part of the
    sources) opens a transaction with an empty checkpoint list. *)
Definition transaction_begin (self : ResizeOperation) (w : World)
  : (EngineError + unit) * World :=
  if begin_fails (faults w) then (inl BeginFailed, w)
  else (inr tt, {| disk := disk w; checkpoints := []; terminal := Pending;
                   faults := faults w |}).

(** The filesystem tool.  Modelled from the spec: the checkpoint is taken
    before the tool runs. *)
Definition resize_filesystem (self : ResizeOperation) (size : Z) (w : World)
  : (EngineError + unit) * World :=
  let w1 := record_checkpoint w (FilesystemCheckpoint (filesystem_size (disk w))) in
  match filesystem_tool (faults w) with
  | Succeeds => (inr tt, with_disk w1 (set_filesystem_size (disk w) size))
  | FailsLeaving z =>
      (inl ExternalToolFailure, with_disk w1 (set_filesystem_size (disk w) z))
  end.

Definition resize_partition_table (self : ResizeOperation) (size : Z) (w : World)
  : (EngineError + unit) * World :=
  let w1 := record_checkpoint w (TableCheckpoint (extent (disk w))) in
  match table_tool (faults w) with
  | Succeeds => (inr tt, with_disk w1 (set_extent (disk w) size))
  | FailsLeaving z =>
      (inl ExternalToolFailure, with_disk w1 (set_extent (disk w) z))
  end.

(** Modelled from the spec: a fresh reading of the partition must show the
    target size. *)
Definition verify_integrity (self : ResizeOperation) (w : World)
  : (EngineError + unit) * World :=
  if verification_fails (faults w) then (inl VerificationMismatch, w)
  else if (extent (disk w) =? target_size self)
          && (filesystem_size (disk w) =? target_size self)
  then (inr tt, w)
  else (inl VerificationMismatch, w).

Definition transaction_commit (transaction : unit) (w : World)
  : (EngineError + unit) * World :=
  if commit_fails (faults w) then (inl CommitFailed, w)
  else (inr tt, with_terminal w Committed).

(** Modelled from the spec: [Transaction::rollback] (its body is not part of
    the sources) replays the checkpoint list in reverse; when a compensating
    action fails the transaction is [Failed] and nothing more is attempted. *)
Definition transaction_rollback (transaction : unit) (w : World)
  : EngineError * World :=
  let '(ok, d) :=
    replay (compensation_fails (faults w)) 0 (rev (checkpoints w)) (disk w) in
  if ok then (OperationRolledBack, with_terminal (with_disk w d) RolledBack)
  else (RollbackFailed, with_terminal (with_disk w d) Failed).

Definition tools : Tools World EngineError unit :=
  {| Engine.validate_preconditions := validate_preconditions;
     Engine.calculate_safe_resize_size := calculate_safe_resize_size;
     Engine.require_backup_confirmation := require_backup_confirmation;
     Engine.transaction_begin := transaction_begin;
     Engine.resize_filesystem := resize_filesystem;
     Engine.resize_partition_table := resize_partition_table;
     Engine.verify_integrity := verify_integrity;
     Engine.transaction_commit := transaction_commit;
     Engine.transaction_rollback := transaction_rollback |}.

Definition initial_world (d : Disk) (f : Faults) : World :=
  {| disk := d; checkpoints := []; terminal := Pending; faults := f |}.

Definition execute_resize (self : ResizeOperation) (d : Disk) (f : Faults)
  : (EngineError + ResizeResult) * Run (World := World) :=
  run_execute tools self (initial_world d f).

(** A shrink of a 100GB data partition to 60GB. *)
Definition shrink_d : ResizeOperation :=
  {| partition_id := "partition-0-2"; device_path := "D:";
     current_size := 100 * GB; target_size := 60 * GB;
     filesystem_type := Snapshot.NTFS |}.

Definition disk_d : Disk :=
  {| extent := 100 * GB; filesystem_size := 100 * GB |}.

Definition no_faults : Faults :=
  {| preconditions_fail := false; backup_acknowledged := true;
     begin_fails := false; filesystem_tool := Succeeds; table_tool := Succeeds;
     verification_fails := false; commit_fails := false;
     compensation_fails := fun _ => false |}.

(** Everything succeeds up to the commit, which fails. *)
Definition commit_failure : Faults :=
  {| preconditions_fail := false; backup_acknowledged := true;
     begin_fails := false; filesystem_tool := Succeeds; table_tool := Succeeds;
     verification_fails := false; commit_fails := true;
     compensation_fails := fun _ => false |}.

(** The partition-table tool fails half way. *)
Definition table_failure : Faults :=
  {| preconditions_fail := false; backup_acknowledged := true;
     begin_fails := false; filesystem_tool := Succeeds;
     table_tool := FailsLeaving (80 * GB);
     verification_fails := false; commit_fails := false;
     compensation_fails := fun _ => false |}.

End DiskWorld.

(** ** Registry of in-flight transactions *)

Module Registry.

Inductive EngineError := OperationInProgress.

(** Modelled from the spec: the keyed set of in-flight transactions
    (partition id to transaction handle) and the transactions that are
    running.  Every operation below is
    one critical section of the registry lock. *)
Record InFlight := {
  registry : gmap string nat;
  running : list (nat * string);
  next_handle : nat
}.

Definition empty : InFlight :=
  {| registry := ∅; running := []; next_handle := O |}.

(** Modelled from the spec: the entry of [execute_resize] (the sources hold no
    registry).  A request for a partition that already has a transaction is
    rejected at once; otherwise the new transaction is registered. *)
Definition register (pid : string) (st : InFlight)
  : (EngineError + nat) * InFlight :=
  match registry st !! pid with
  | Some _ => (inl OperationInProgress, st)
  | None =>
      let tx := next_handle st in
      (inr tx,
       {| registry := <[pid := tx]> (registry st);
          running := (tx, pid) :: running st;
          next_handle := S tx |})
  end.

(** Modelled from the spec: a transaction that reached a terminal state
    leaves the registry. *)
Definition deregister (pid : string) (st : InFlight) : InFlight :=
  {| registry := delete pid (registry st);
     running := List.filter (fun r => negb (String.eqb (snd r) pid)) (running st);
     next_handle := next_handle st |}.

(** What concurrent callers can do to the registry, one critical section at
    a time. *)
Inductive Action :=
  | Request (pid : string)
  | Terminate (pid : string).

Definition step (st : InFlight) (a : Action) : InFlight :=
  match a with
  | Request pid => snd (register pid st)
  | Terminate pid => deregister pid st
  end.

(** Any interleaving of requests and terminations, from the empty registry. *)
Definition run (actions : list Action) : InFlight :=
  foldl step empty actions.

(** The registry and the running transactions tell the same story, and no
    partition has two running transactions. *)
Definition consistent (st : InFlight) : Prop :=
  (forall tx pid, In (tx, pid) (running st) <-> registry st !! pid = Some tx)
  /\ List.NoDup (List.map snd (running st)).

End Registry.

(** ** Confirmation dialogs of the user interface *)

Module Dialogs.

Inductive Callback := OnConfirm | OnCancel.

(** *** BackupVerificationDialog *)

Record Checks := {
  hasBackup : bool;
  verifiedBackup : bool;
  recentBackup : bool;
  understandsRisk : bool
}.

Inductive CheckKey := HasBackup | VerifiedBackup | RecentBackup | UnderstandsRisk.

(** [useState] initial value. *)
Definition initial_checks : Checks :=
  {| hasBackup := false; verifiedBackup := false; recentBackup := false;
     understandsRisk := false |}.

(** [Object.values(checks)]. *)
Definition values (checks : Checks) : list bool :=
  [hasBackup checks; verifiedBackup checks; recentBackup checks;
   understandsRisk checks].

(** [Object.values(checks).every((v) => v)]. *)
Definition allChecked (checks : Checks) : bool :=
  forallb (fun v => v) (values checks).

(** [setChecks((prev) => ({ ...prev, [key]: !prev[key] }))]. *)
Definition handleCheckChange (key : CheckKey) (prev : Checks) : Checks :=
  match key with
  | HasBackup =>
      {| hasBackup := negb (hasBackup prev); verifiedBackup := verifiedBackup prev;
         recentBackup := recentBackup prev; understandsRisk := understandsRisk prev |}
  | VerifiedBackup =>
      {| hasBackup := hasBackup prev; verifiedBackup := negb (verifiedBackup prev);
         recentBackup := recentBackup prev; understandsRisk := understandsRisk prev |}
  | RecentBackup =>
      {| hasBackup := hasBackup prev; verifiedBackup := verifiedBackup prev;
         recentBackup := negb (recentBackup prev); understandsRisk := understandsRisk prev |}
  | UnderstandsRisk =>
      {| hasBackup := hasBackup prev; verifiedBackup := verifiedBackup prev;
         recentBackup := recentBackup prev; understandsRisk := negb (understandsRisk prev) |}
  end.

(** The callbacks [handleConfirm] invokes. *)
Definition backup_handleConfirm (checks : Checks) : list Callback :=
  if allChecked checks then [OnConfirm] else [].

(** [disabled={!allChecked}] of the continue button. *)
Definition continue_disabled (checks : Checks) : bool := negb (allChecked checks).

Inductive BackupEvent :=
  | ToggleCheckbox (key : CheckKey)
  | ClickContinue
  | ClickCancelBackup.

(** One user action: the next state and the callbacks fired.  A click on a
    disabled button reaches no handler. *)
Definition backup_step (checks : Checks) (ev : BackupEvent)
  : Checks * list Callback :=
  match ev with
  | ToggleCheckbox key => (handleCheckChange key checks, [])
  | ClickContinue =>
      (checks, if continue_disabled checks then [] else backup_handleConfirm checks)
  | ClickCancelBackup => (checks, [OnCancel])
  end.

(** A session with the dialog: every callback fired, with the checkboxes as
    they stood when it fired. *)
Fixpoint backup_session (checks : Checks) (evs : list BackupEvent)
  : list (Checks * Callback) :=
  match evs with
  | [] => []
  | ev :: rest =>
      let '(checks', fired) := backup_step checks ev in
      List.map (fun cb => (checks, cb)) fired ++ backup_session checks' rest
  end.

(** A user who clicks too early, then checks the four boxes and clicks
    again. *)
Definition all_four : Checks :=
  {| hasBackup := true; verifiedBackup := true; recentBackup := true;
     understandsRisk := true |}.

Definition careful_user : list BackupEvent :=
  [ClickContinue; ToggleCheckbox HasBackup; ToggleCheckbox VerifiedBackup;
   ToggleCheckbox RecentBackup; ToggleCheckbox UnderstandsRisk; ClickContinue].

(** *** ConfirmationDialog *)

(** A JavaScript string: its UTF-16 code units. *)
Definition jsstring : Type := list N.

Definition units (s : string) : jsstring :=
  List.map N_of_ascii (list_ascii_of_string s).

(** Upper case of one code unit, as [String.prototype.toUpperCase] maps it,
    for the letters a-z and for the units outside ASCII whose upper case is
    made of ASCII letters only: sharp s (SS), dotless i (I), long s (S) and
    the ligatures ff, fi, fl, ffi, ffl, long-s-t and st.  Every other unit is
    kept: it is either its own upper case or a unit outside ASCII whose upper
    case has a unit outside ASCII too, so that a comparison with a word of
    capital ASCII letters comes out the same. *)
Definition upper_unit (c : N) : list N :=
  if ((97 <=? c) && (c <=? 122))%N then [(c - 32)%N]
  else if (c =? 223)%N then [83%N; 83%N]
  else if (c =? 305)%N then [73%N]
  else if (c =? 383)%N then [83%N]
  else if (c =? 64256)%N then [70%N; 70%N]
  else if (c =? 64257)%N then [70%N; 73%N]
  else if (c =? 64258)%N then [70%N; 76%N]
  else if (c =? 64259)%N then [70%N; 70%N; 73%N]
  else if (c =? 64260)%N then [70%N; 70%N; 76%N]
  else if ((c =? 64261) || (c =? 64262))%N then [83%N; 84%N]
  else [c].

Definition toUpperCase (s : jsstring) : jsstring := flat_map upper_unit s.

(** [confirmText.toUpperCase() === 'SHRINK']. *)
Definition isConfirmed (confirmText : jsstring) : bool :=
  bool_decide (toUpperCase confirmText = units "SHRINK").

Definition shrink_handleConfirm (confirmText : jsstring) : list Callback :=
  if isConfirmed confirmText then [OnConfirm] else [].

(** [disabled={!isConfirmed}] of the start button. *)
Definition start_disabled (confirmText : jsstring) : bool :=
  negb (isConfirmed confirmText).

Inductive ShrinkEvent :=
  | ChangeText (value : jsstring)
  | ClickStart
  | ClickCancelShrink.

Definition shrink_step (confirmText : jsstring) (ev : ShrinkEvent)
  : jsstring * list Callback :=
  match ev with
  | ChangeText value => (value, [])
  | ClickStart =>
      (confirmText,
       if start_disabled confirmText then [] else shrink_handleConfirm confirmText)
  | ClickCancelShrink => (confirmText, [OnCancel])
  end.

(** Every callback fired in a session, with the text typed at that time. *)
Fixpoint shrink_session (confirmText : jsstring) (evs : list ShrinkEvent)
  : list (jsstring * Callback) :=
  match evs with
  | [] => []
  | ev :: rest =>
      let '(text', fired) := shrink_step confirmText ev in
      List.map (fun cb => (confirmText, cb)) fired ++ shrink_session text' rest
  end.

(** The code units that spell one letter of the word: the capital [upper],
    its small letter, and dotless i and long s for I and S. *)
Definition matches_letter (upper c : N) : bool :=
  ((c =? upper) || (c =? upper + 32)
   || ((upper =? 73) && (c =? 305)) || ((upper =? 83) && (c =? 383)))%N.

Definition spells_shrink (s : jsstring) : bool :=
  match s with
  | [c1; c2; c3; c4; c5; c6] =>
      matches_letter 83 c1 && matches_letter 72 c2 && matches_letter 82 c3
      && matches_letter 73 c4 && matches_letter 78 c5 && matches_letter 75 c6
  | _ => false
  end.

End Dialogs.

(** ** More readings of a trace *)

Module Reading.
Import Engine.

(** Every operation invoked, whatever its outcome. *)
Fixpoint invoked (tr : list Event) : list Call :=
  match tr with
  | [] => []
  | Invoked c _ :: tr' => c :: invoked tr'
  | _ :: tr' => invoked tr'
  end.

(** How many times the rollback was invoked. *)
Fixpoint rollbacks (tr : list Event) : nat :=
  match tr with
  | [] => O
  | Rollback :: tr' => S (rollbacks tr')
  | _ :: tr' => rollbacks tr'
  end.

(** The sizes handed to the two resize tools. *)
Fixpoint resize_sizes (tr : list Event) : list Z :=
  match tr with
  | [] => []
  | Invoked (ResizeFilesystem z) _ :: tr' => z :: resize_sizes tr'
  | Invoked (ResizePartitionTable z) _ :: tr' => z :: resize_sizes tr'
  | _ :: tr' => resize_sizes tr'
  end.

End Reading.

(** ** Platform wrappers: ntfsresize, chkdsk, resize2fs, e2fsck *)

Module Platform.

(** A [std::process::Command] ready to run, and what [output()] gives back
    when the program could be started. *)
Record Invocation := {
  program : string;
  arguments : list string
}.

Record Output := {
  status_success : bool;
  stderr : string
}.

(** What a wrapper did: the programs it ran, each with its exit status
    ([None] when the program could not be started), and the unmounts it asked
    for. *)
Inductive Action :=
  | Ran (i : Invocation) (exit : option bool)
  | Unmount (device : string).

Section Wrappers.
Context {World IoError : Type}.

(** [?] on [output().await] passes the start-up error on; [anyhow!] makes a
    message. *)
Inductive Failure :=
  | Io (e : IoError)
  | Message (text : string).

(** The operating system, and the unmount helper (its body is not part of
    the sources). *)
Variable output : Invocation -> World -> (IoError + Output) * World.
Variable unmount_filesystem : string -> World -> (Failure + unit) * World.

Definition Run : Type := World * list Action.
Definition M (A : Type) : Type := Run -> (Failure + A) * Run.

Definition ret {A} (a : A) : M A := fun st => (inr a, st).
Definition fail {A} (e : Failure) : M A := fun st => (inl e, st).

Definition bind {A B} (m : M A) (k : A -> M B) : M B :=
  fun st =>
    match m st with
    | (inl e, st') => (inl e, st')
    | (inr a, st') => k a st'
    end.

(** [Command::new(..).arg(..).output().await?]. *)
Definition run_command (i : Invocation) : M Output :=
  fun st =>
    match output i (fst st) with
    | (inl e, w) => (inl (Io e), (w, snd st ++ [Ran i None]))
    | (inr o, w) => (inr o, (w, snd st ++ [Ran i (Some (status_success o))]))
    end.

(** [unmount_filesystem(device).await?]. *)
Definition unmount (device : string) : M unit :=
  fun st =>
    let '(r, w) := unmount_filesystem device (fst st) in
    (r, (w, snd st ++ [Unmount device])).

Notation "x <- m ;; k" := (bind m (fun x => k))
  (at level 100, m at next level, right associativity).
Notation "m ;;; k" := (bind m (fun _ => k))
  (at level 100, right associativity).

(** [format!("{}M", new_size / 1024 / 1024)] and
    [format!("{}K", new_size / 1024)] on [u64]. *)
Definition megabytes (new_size : N) : string :=
  pretty (new_size / 1024 / 1024)%N +:+ "M".

Definition kilobytes (new_size : N) : string :=
  pretty (new_size / 1024)%N +:+ "K".




Definition resize2fs (device : string) (new_size : N) : Invocation :=
  {| program := "resize2fs"; arguments := [device; kilobytes new_size] |}.

Definition e2fsck (device : string) : Invocation :=
  {| program := "e2fsck"; arguments := ["-f"; "-y"; device] |}.



(** [resize_ext4].  The source reads [self.is_growing()] inside a free
    function; the direction is an argument here. *)
Definition resize_ext4 (is_growing : bool) (device : string) (new_size : N)
    (is_mounted : bool) : M unit :=
  (* Growing can be done online (mounted) *)
  if is_growing && is_mounted then
    result <- run_command (resize2fs device new_size) ;;
    if negb (status_success result) then fail (Message "Online resize failed")
    else ret tt
  else
    (* Shrinking requires unmount + fsck first *)
    (if negb is_mounted then unmount device else ret tt) ;;;
    (* Step 1: Force filesystem check *)
    fsck <- run_command (e2fsck device) ;;
    if negb (status_success fsck) then fail (Message "Filesystem check failed")
    else
      (* Step 2: Resize *)
      result <- run_command (resize2fs device new_size) ;;
      if negb (status_success result) then fail (Message "Resize failed")
      else ret tt.

Definition is_ok {A} (r : Failure + A) : bool :=
  match r with inr _ => true | inl _ => false end.

End Wrappers.



Fixpoint unmounts (log : list Action) : list string :=
  match log with
  | [] => []
  | Ran _ _ :: log' => unmounts log'
  | Unmount d :: log' => d :: unmounts log'
  end.

(** A system in which every program starts and exits as told, for
    examples: the world is the list of exit statuses still to come. *)
Definition scripted_output (i : Invocation) (w : list bool)
  : (unit + Output) * list bool :=
  match w with
  | [] => (inl tt, [])
  | b :: w' => (inr {| status_success := b; stderr := "stderr" |}, w')
  end.

Definition scripted_unmount (device : string) (w : list bool)
  : (Failure (IoError := unit) + unit) * list bool :=
  (inr tt, w).


End Platform.

(** ** DiskUsageChart *)

Module Chart.

(** The entries of a scanned directory, with the fields the components
    read.  Sizes are JavaScript numbers that hold whole byte counts. *)
#[local] Set Warnings "-register-all".
Inductive FileNode := mkFileNode {
  name : string;
  path : string;
  is_dir : bool;
  size : Z;
  file_count : Z;
  last_modified : Z;
  children : list FileNode
}.

Record ChartDatum := {
  datum_name : string;
  value : Z;
  formattedSize : string
}.

Definition COLORS : list string :=
  [ "#0088FE"; "#00C49F"; "#FFBB28"; "#FF8042";
    "#8884d8"; "#82ca9d"; "#a4de6c"; "#d0ed57";
    "#ffc658"; "#8dd1e1" ].

(** [a + b] on numbers that hold whole values: the exact sum rounded to
    the nearest number with a 53-bit significand, ties to the even
    significand.  (Byte counts stay far below the largest finite number,
    beyond which a sum is [Infinity].) *)
Definition round_to_number (z : Z) : Z :=
  let a := Z.abs z in
  if a <=? 2 ^ 53 then z
  else
    let e := Z.log2 a - 52 in
    let q := Z.shiftr a e in
    let r := a - Z.shiftl q e in
    let half := Z.shiftl 1 (e - 1) in
    let q' := if r <? half then q
              else if half <? r then q + 1
              else if Z.even q then q else q + 1 in
    Z.sgn z * Z.shiftl q' e.

Definition number_add (a b : Z) : Z := round_to_number (a + b).

(** [otherItems.reduce((acc, item) => acc + item.size, 0)]. *)
Definition reduce_sizes (items : list FileNode) : Z :=
  fold_left (fun acc item => number_add acc (size item)) items 0.

(** [[...items].sort((a, b) => b.size - a.size)]: the stable sort by
    decreasing size, as an insertion sort that keeps equal sizes in their
    original order (the sign of [b.size - a.size] is that of the exact
    difference). *)
Fixpoint insert_desc (x : FileNode) (l : list FileNode) : list FileNode :=
  match l with
  | [] => [x]
  | y :: l' =>
      if size y <=? size x then x :: y :: l'
      else y :: insert_desc x l'
  end.

Definition sort_desc (items : list FileNode) : list FileNode :=
  foldr insert_desc [] items.

Section Data.
(** [formatSize] goes through [Math.log] and [toFixed]; it is kept as it
    is given. *)
Variable formatSize : Z -> string.

Definition datum_of (item : FileNode) : ChartDatum :=
  {| datum_name := name item; value := size item;
     formattedSize := formatSize (size item) |}.

(** The [data] memo of the component; [None] is a missing [items]. *)
Definition chart_data (items : option (list FileNode)) : list ChartDatum :=
  match items with
  | None => []
  | Some [] => []
  | Some items =>
      (* Sort by size desc *)
      let sorted := sort_desc items in
      (* Take top 8 *)
      let topN := 8%nat in
      let topItems := firstn topN sorted in
      let otherItems := skipn topN sorted in
      let chartData := List.map datum_of topItems in
      if (0 <? length otherItems)%nat then
        let otherSize := reduce_sizes otherItems in
        chartData ++ [ {| datum_name := "Others"; value := otherSize;
                          formattedSize := formatSize otherSize |} ]
      else chartData
  end.

End Data.

(** [COLORS[index % COLORS.length]], the fill of the slice at [index]. *)
Definition fill (index : nat) : option string :=
  nth_error COLORS (index mod length COLORS).

Definition fills (data : list ChartDatum) : list (option string) :=
  List.map fill (seq 0 (length data)).

(** [a] comes before [b] in decreasing order of size. *)
Definition by_size_desc (a b : FileNode) : Prop := size b <= size a.

Definition total (items : list FileNode) : Z :=
  fold_right (fun item acc => size item + acc) 0 items.

Definition file (n : string) (s : Z) : FileNode :=
  {| name := n; path := n; is_dir := false; size := s; file_count := 0;
     last_modified := 0; children := [] |}.

(** Ten files of 1 to 10 bytes. *)
Definition ten_files : list FileNode :=
  [ file "a" 3; file "b" 10; file "c" 1; file "d" 7; file "e" 2;
    file "f" 9; file "g" 4; file "h" 8; file "i" 5; file "j" 6 ].

(** Eight files of 2^54 bytes, one of 2^53 bytes and one of one byte. *)
Definition huge_files : list FileNode :=
  [ file "a" (2 ^ 54); file "b" (2 ^ 54); file "c" (2 ^ 54); file "d" (2 ^ 54);
    file "e" (2 ^ 54); file "f" (2 ^ 54); file "g" (2 ^ 54); file "h" (2 ^ 54);
    file "i" (2 ^ 53); file "j" 1 ].

End Chart.

(** ** FileExplorer *)

Module Explorer.
Import Chart.

(** *** Paths *)

(** A path is its sequence of characters; only [/] and [\] are looked at. *)
Definition slash : ascii := "/"%char.
Definition backslash : ascii := "\"%char.

(** [s.includes(c)] for a one-character [c]. *)
Fixpoint includes_char (c : ascii) (s : string) : bool :=
  match s with
  | EmptyString => false
  | String a s' => Ascii.eqb a c || includes_char c s'
  end.

(** [s.split(sep)] for a one-character separator. *)
Fixpoint split_on (sep : ascii) (s : string) : list string :=
  match s with
  | EmptyString => [EmptyString]
  | String a s' =>
      if Ascii.eqb a sep then EmptyString :: split_on sep s'
      else
        match split_on sep s' with
        | [] => [String a EmptyString]
        | p :: ps => String a p :: ps
        end
  end.

(** [parts.join(sep)]. *)
Fixpoint join (sep : ascii) (parts : list string) : string :=
  match parts with
  | [] => EmptyString
  | p :: ps =>
      match ps with
      | [] => p
      | _ :: _ => p +:+ String sep (join sep ps)
      end
  end.

(** [Boolean(s)] on a string. *)
Definition truthy (s : string) : bool :=
  match s with EmptyString => false | String _ _ => true end.

(** [s.startsWith('/')]. *)
Definition starts_with_slash (s : string) : bool :=
  match s with
  | String a _ => Ascii.eqb a slash
  | EmptyString => false
  end.

(** The path [handleUp] navigates to, if it navigates at all. *)
Definition up_target (path : string) : option string :=
  let separator := if includes_char slash path then slash else backslash in
  let parts := List.filter truthy (split_on separator path) in
  if (0 <? length parts)%nat then
    let parts := removelast parts in
    let parentPath :=
      if (length parts =? 0)%nat then String slash EmptyString
      else join separator parts in
    let finalPath :=
      if String.eqb parentPath EmptyString then String slash EmptyString
      else if starts_with_slash path then String slash parentPath
           else parentPath in
    Some finalPath
  else None.

(** *** The component *)

Inductive Command := scan_dir | refresh_scan.

(** A call of [invoke] that has not settled yet. *)
Record Fetch := {
  target : string;
  command : Command
}.

Record ExplorerState := {
  path : string;
  loading : bool;
  data : option FileNode;
  history : list string;
  historyIndex : nat;
  error : option string
}.

(** The two pieces of state of the component and the scans in flight.
    [historyIndex] is a natural number: the code only subtracts from it under
    a guard that keeps it so. *)
Record Component := {
  state : ExplorerState;
  inputPath : string;
  pending : list Fetch
}.

Definition initial : Component :=
  {| state := {| path := "C:\"; loading := false; data := None;
                 history := ["C:\"]; historyIndex := O; error := None |};
     inputPath := "C:\";
     pending := [] |}.

Definition set_state (c : Component) (s : ExplorerState) : Component :=
  {| state := s; inputPath := inputPath c; pending := pending c |}.

(** [fetchData] up to its [await]. *)
Definition fetchData (p : string) (forceRefresh : bool) (c : Component)
  : Component :=
  let prev := state c in
  {| state := {| path := path prev; loading := true; data := data prev;
                 history := history prev; historyIndex := historyIndex prev;
                 error := None |};
     inputPath := inputPath c;
     pending := pending c ++ [ {| target := p;
                                  command := if forceRefresh then refresh_scan
                                             else scan_dir |} ] |}.

(** What [invoke] settles with: the scanned node, or an error text. *)
Inductive Outcome := Resolved (node : FileNode) | Rejected (e : string).

Fixpoint remove_nth {A} (i : nat) (l : list A) : list A :=
  match l, i with
  | [], _ => []
  | _ :: l', O => l'
  | x :: l', S i' => x :: remove_nth i' l'
  end.

(** [fetchData] after its [await], for the [i]-th scan in flight. *)
Definition settle (i : nat) (o : Outcome) (c : Component) : Component :=
  match nth_error (pending c) i with
  | None => c
  | Some f =>
      let prev := state c in
      match o with
      | Resolved node =>
          {| state := {| path := target f; loading := false; data := Some node;
                         history := history prev;
                         historyIndex := historyIndex prev;
                         error := error prev |};
             inputPath := target f;
             pending := remove_nth i (pending c) |}
      | Rejected e =>
          {| state := {| path := path prev; loading := false; data := data prev;
                         history := history prev;
                         historyIndex := historyIndex prev;
                         error := Some e |};
             inputPath := inputPath c;
             pending := remove_nth i (pending c) |}
      end
  end.

(** The mount effect. *)
Definition mount (c : Component) : Component :=
  let prev := state c in
  let initialPath := String slash EmptyString in
  fetchData initialPath false
    (set_state c
       {| path := initialPath; loading := true; data := data prev;
          history := [initialPath]; historyIndex := O; error := error prev |}).

Definition handleNavigate (newPath : string) (c : Component) : Component :=
  let s := state c in
  if String.eqb newPath (path s) then c
  else
    (* Add to history *)
    let newHistory := firstn (historyIndex s + 1) (history s) ++ [newPath] in
    fetchData newPath false
      (set_state c
         {| path := path s; loading := loading s; data := data s;
            history := newHistory; historyIndex := (length newHistory - 1)%nat;
            error := error s |}).

(** [state.history[i]]; the empty string stands for [undefined]. *)
Definition history_at (s : ExplorerState) (i : nat) : string :=
  nth i (history s) EmptyString.

Definition handleBack (c : Component) : Component :=
  let s := state c in
  if (0 <? historyIndex s)%nat then
    let newIndex := (historyIndex s - 1)%nat in
    let prevPath := history_at s newIndex in
    fetchData prevPath false
      (set_state c
         {| path := path s; loading := loading s; data := data s;
            history := history s; historyIndex := newIndex; error := error s |})
  else c.

Definition handleForward (c : Component) : Component :=
  let s := state c in
  if (historyIndex s <? length (history s) - 1)%nat then
    let newIndex := (historyIndex s + 1)%nat in
    let nextPath := history_at s newIndex in
    fetchData nextPath false
      (set_state c
         {| path := path s; loading := loading s; data := data s;
            history := history s; historyIndex := newIndex; error := error s |})
  else c.

Definition handleUp (c : Component) : Component :=
  match up_target (path (state c)) with
  | Some finalPath => handleNavigate finalPath c
  | None => c
  end.

(** [disabled] of the back and forward buttons. *)
Definition back_disabled (c : Component) : bool :=
  (historyIndex (state c) <=? 0)%nat.

Definition forward_disabled (c : Component) : bool :=
  (length (history (state c)) - 1 <=? historyIndex (state c))%nat.

(** What can happen to the component: the mount effect, the user's actions
    and the settling of a scan in flight. *)
Inductive Event :=
  | Mount
  | ClickBack
  | ClickForward
  | ClickUp
  | ClickRefresh
  | TypePath (value : string)
  | Go
  | OpenRow (item : FileNode)
  | Settle (i : nat) (o : Outcome).

Definition step (c : Component) (ev : Event) : Component :=
  match ev with
  | Mount => mount c
  | ClickBack => if back_disabled c then c else handleBack c
  | ClickForward => if forward_disabled c then c else handleForward c
  | ClickUp => handleUp c
  | ClickRefresh => fetchData (path (state c)) true c
  | TypePath value =>
      {| state := state c; inputPath := value; pending := pending c |}
  | Go => handleNavigate (inputPath c) c
  | OpenRow item => if is_dir item then handleNavigate (Chart.path item) c else c
  | Settle i o => settle i o c
  end.

Definition run (evs : list Event) : Component := foldl step initial evs.

(** The address bar and the history are in step, and nothing is in flight. *)
Definition in_step (c : Component) : Prop :=
  pending c = []
  /\ nth_error (history (state c)) (historyIndex (state c)) = Some (path (state c)).

(** An event, followed by the successful settling of the scan it issued, if
    it issued one. *)
Definition act_and_load (c : Component) (ev : Event) (node : FileNode) : Component :=
  settle 0 (Resolved node) (step c ev).

(** A session in which every scan succeeds before the next event. *)
Definition browse (evs : list (Event * FileNode)) : Component :=
  foldl (fun c en => act_and_load c (fst en) (snd en)) initial evs.


End Explorer.

(** ** Tool calling utilities *)

Module ToolCalling.
Import Dialogs.

(** *** Strings *)

Definition quote : jsstring := [34%N].
Definition newline : jsstring := [10%N].

Definition unit_eqb (a b : N) : bool := (a =? b)%N.

Fixpoint starts_with (needle hay : jsstring) : bool :=
  match needle, hay with
  | [], _ => true
  | _ :: _, [] => false
  | a :: needle', b :: hay' => unit_eqb a b && starts_with needle' hay'
  end.

(** [hay.includes(needle)]. *)
Fixpoint includes (needle hay : jsstring) : bool :=
  starts_with needle hay
  || match hay with
     | [] => false
     | _ :: hay' => includes needle hay'
     end.

(** The first occurrence of [needle]: what comes before it and after it. *)
Fixpoint find (needle hay : jsstring) : option (jsstring * jsstring) :=
  if starts_with needle hay then Some ([], skipn (length needle) hay)
  else
    match hay with
    | [] => None
    | c :: hay' =>
        match find needle hay' with
        | Some (before, rest) => Some (c :: before, rest)
        | None => None
        end
    end.

(** White space and line terminators, the units [trim] strips. *)
Definition is_space (c : N) : bool :=
  ((c =? 9) || (c =? 10) || (c =? 11) || (c =? 12) || (c =? 13) || (c =? 32)
   || (c =? 160) || (c =? 5760) || ((8192 <=? c) && (c <=? 8202))
   || (c =? 8232) || (c =? 8233) || (c =? 8239) || (c =? 8287)
   || (c =? 12288) || (c =? 65279))%N.

Fixpoint trim_start (s : jsstring) : jsstring :=
  match s with
  | [] => []
  | c :: s' => if is_space c then trim_start s' else s
  end.

(** [s.trim()]. *)
Definition trim (s : jsstring) : jsstring :=
  rev (trim_start (rev (trim_start s))).

(** *** Tags *)

Definition open_tag : jsstring := units "<tool_call>".
Definition close_tag : jsstring := units "</tool_call>".

(** [detectToolCall]. *)
Definition detectToolCall (content : jsstring) : bool :=
  includes open_tag content && includes close_tag content.

(** [hasToolResult]. *)
Definition hasToolResult (content : jsstring) : bool :=
  includes (units "<tool_result") content
  && includes (units "</tool_result>") content.

(** [formatToolResult]. *)
Definition formatToolResult (toolName result : jsstring) (isError : bool)
  : jsstring :=
  if isError then
    units "<tool_result name=" ++ quote ++ toolName ++ quote
      ++ units " error=" ++ quote ++ units "true" ++ quote ++ units ">"
      ++ newline ++ result ++ newline ++ units "</tool_result>"
  else
    units "<tool_result name=" ++ quote ++ toolName ++ quote ++ units ">"
      ++ newline ++ result ++ newline ++ units "</tool_result>".

(** One match of [/<tool_call>([\s\S]*?)<\/tool_call>/]: the text before
    the first opening tag, the text up to the first closing tag after it,
    and the rest.  An opening tag with no closing tag after it matches
    nothing, and then no later one does. *)
Definition next_match (s : jsstring) : option (jsstring * jsstring * jsstring) :=
  match find open_tag s with
  | None => None
  | Some (before, after_open) =>
      match find close_tag after_open with
      | None => None
      | Some (body, rest) => Some (before, body, rest)
      end
  end.

(** The captured groups of the successive matches ([regex.exec] in a loop);
    [fuel] bounds the number of matches. *)
Fixpoint bodies_upto (fuel : nat) (s : jsstring) : list jsstring :=
  match fuel with
  | O => []
  | S fuel' =>
      match next_match s with
      | None => []
      | Some (_, body, rest) => body :: bodies_upto fuel' rest
      end
  end.

Definition bodies (s : jsstring) : list jsstring := bodies_upto (length s) s.

(** [content.replace(/<tool_call>[\s\S]*?<\/tool_call>/g, '')]. *)
Fixpoint strip_upto (fuel : nat) (s : jsstring) : jsstring :=
  match fuel with
  | O => s
  | S fuel' =>
      match next_match s with
      | None => s
      | Some (before, _, rest) => before ++ strip_upto fuel' rest
      end
  end.

(** [removeToolCallTags]. *)
Definition removeToolCallTags (content : jsstring) : jsstring :=
  trim (strip_upto (length content) content).

(** *** Parsed JSON *)

Section Extract.
(** Numbers are kept as they are given, with the one thing the code asks of
    them: whether they are truthy (neither zero nor NaN). *)
Context {Number : Type}.
Variable number_truthy : Number -> bool.

#[local] Set Warnings "-register-all".
Inductive Json :=
  | JNull
  | JBool (b : bool)
  | JNumber (n : Number)
  | JString (s : jsstring)
  | JArray (items : list Json)
  | JObject (fields : list (jsstring * Json)).

(** [JSON.parse]; [None] when it throws. *)
Variable JSON_parse : jsstring -> option Json.

(** [Date.now()] at the [i]-th match. *)
Variable Date_now : nat -> N.

(** A property of an object: the last field of that name, or [undefined]. *)
Fixpoint field (key : jsstring) (fields : list (jsstring * Json)) : option Json :=
  match fields with
  | [] => None
  | (k, v) :: fields' =>
      match field key fields' with
      | Some v' => Some v'
      | None => if bool_decide (k = key) then Some v else None
      end
  end.

(** Truthiness; [None] is [undefined]. *)
Definition truthy (v : option Json) : bool :=
  match v with
  | None => false
  | Some JNull => false
  | Some (JBool b) => b
  | Some (JNumber n) => number_truthy n
  | Some (JString s) => match s with [] => false | _ :: _ => true end
  | Some (JArray _) => true
  | Some (JObject _) => true
  end.

Record ToolCall := {
  id : Json;
  name : Json;
  arguments : Json
}.

(** [jsonContent.match(/\{[\s\S]*\}/)]: from the first opening brace to the
    last closing brace after it. *)
Definition brace_span (s : jsstring) : option jsstring :=
  match find [123%N] s with
  | None => None
  | Some (_, after_open) =>
      match find [125%N] (rev after_open) with
      | None => None
      | Some (_, inside_reversed) => Some (123%N :: rev inside_reversed ++ [125%N])
      end
  end.

Definition decimal (n : N) : jsstring := units (pretty n).

(** [`call_${Date.now()}_${toolCalls.length}`]. *)
Definition generated_id (now : N) (count : nat) : jsstring :=
  units "call_" ++ decimal now ++ units "_" ++ decimal (N.of_nat count).

(** The body of the loop for one match: the tool call to push, if any.  A
    value that is not an object has no [name] ([null] throws, which the
    [catch] swallows). *)
Definition parse_call (i : nat) (count : nat) (body : jsstring) : option ToolCall :=
  let jsonContent := trim body in
  (* Try to extract just the JSON object if there's extra text *)
  let jsonContent :=
    match brace_span jsonContent with
    | Some m => m
    | None => jsonContent
    end in
  match JSON_parse jsonContent with
  | Some (JObject fields) =>
      (* Validate required fields *)
      match field (units "name") fields, field (units "arguments") fields with
      | Some n, Some a =>
          if truthy (Some n) && truthy (Some a) then
            Some {| id := if truthy (field (units "id") fields)
                          then default JNull (field (units "id") fields)
                          else JString (generated_id (Date_now i) count);
                    name := n;
                    arguments := a |}
          else None
      | _, _ => None
      end
  | _ => None
  end.

(** The loop over the matches, [toolCalls] being the calls pushed so far. *)
Fixpoint collect (i : nat) (toolCalls : list ToolCall) (bs : list jsstring)
  : list ToolCall :=
  match bs with
  | [] => toolCalls
  | body :: bs' =>
      match parse_call i (length toolCalls) body with
      | Some call => collect (S i) (toolCalls ++ [call]) bs'
      | None => collect (S i) toolCalls bs'
      end
  end.

(** [extractToolCalls] (its console output left aside). *)
Definition extractToolCalls (content : jsstring) : list ToolCall :=
  collect O [] (bodies content).

End Extract.

Arguments JNull {Number}.
Arguments JBool {Number}.
Arguments JString {Number}.
Arguments JArray {Number}.
Arguments JObject {Number}.

(** A stand-in for [JSON.parse] for examples: it accepts only [{}] and
    answers a fixed call without an id. *)
Definition toy_parse (s : jsstring) : option (Json (Number := N)) :=
  if bool_decide (s = units "{}")
  then Some (JObject [(units "name", JString (units "scan"));
                      (units "arguments", JObject [])])
  else None.

End ToolCalling.

(** ** The backup checklist over a whole session *)

Module Checklist.
Import Dialogs.

(** [checks[key]]. *)
Definition get (key : CheckKey) (checks : Checks) : bool :=
  match key with
  | HasBackup => hasBackup checks
  | VerifiedBackup => verifiedBackup checks
  | RecentBackup => recentBackup checks
  | UnderstandsRisk => understandsRisk checks
  end.

Definition same_key (a b : CheckKey) : bool :=
  match a, b with
  | HasBackup, HasBackup | VerifiedBackup, VerifiedBackup
  | RecentBackup, RecentBackup | UnderstandsRisk, UnderstandsRisk => true
  | _, _ => false
  end.

(** The checkboxes after a sequence of user actions. *)
Definition checks_after (checks : Checks) (evs : list BackupEvent) : Checks :=
  fold_left (fun c ev => fst (backup_step c ev)) evs checks.

(** How many times the box [key] was clicked. *)
Fixpoint toggles (key : CheckKey) (evs : list BackupEvent) : nat :=
  match evs with
  | [] => O
  | ToggleCheckbox k :: rest =>
      if same_key key k then S (toggles key rest) else toggles key rest
  | _ :: rest => toggles key rest
  end.

End Checklist.

(** ** The progress stream against the state machine *)

Module Reporter.
Import Snapshot Resize Engine.

(** The transitions of the state machine that a run of [execute] makes: one
    forward transition for each operation that completed, and the transition
    to RollingBack for each invocation of [transaction.rollback()]. *)
Inductive Transition :=
  | Entered (p : Phase)
  | RollingBack.

Fixpoint transitions (tr : list Event) : list Transition :=
  match tr with
  | [] => []
  | Invoked c true :: tr' => Entered (phase_of_call c) :: transitions tr'
  | Rollback :: tr' => RollingBack :: transitions tr'
  | _ :: tr' => transitions tr'
  end.

(** Every transition is followed at once by one progress event, and every
    progress event follows a transition. *)
Fixpoint one_event_per_transition (tr : list Event) : bool :=
  match tr with
  | [] => true
  | Invoked _ true :: Progress _ _ :: tr' => one_event_per_transition tr'
  | Rollback :: Progress _ _ :: tr' => one_event_per_transition tr'
  | Invoked _ false :: tr' => one_event_per_transition tr'
  | _ => false
  end.

(** The progress stream as specified: percentages that never decrease, and
    exactly one event per transition. *)
Definition one_event_per_transition_claim (tr : list Event) : Prop :=
  StronglySorted Z.le (percentages tr)
  /\ one_event_per_transition tr = true.

(** The phases of a direction, in the order [execute] goes through them. *)
Definition reference_phases (self : ResizeOperation) : list Phase :=
  [Validating; SafeSizeCalculated; BackupConfirmed; TransactionOpen]
    ++ (if is_shrinking self then [FilesystemResized] else [])
    ++ [PartitionTableUpdated]
    ++ (if is_growing self then [FilesystemResized] else [])
    ++ [Verifying; Committed].

(** The phases that were attempted, whatever the outcome, and those that
    failed. *)
Fixpoint attempted (tr : list Event) : list Phase :=
  match tr with
  | [] => []
  | Invoked c _ :: tr' => phase_of_call c :: attempted tr'
  | _ :: tr' => attempted tr'
  end.

Fixpoint failed (tr : list Event) : list Phase :=
  match tr with
  | [] => []
  | Invoked c false :: tr' => phase_of_call c :: failed tr'
  | _ :: tr' => failed tr'
  end.

(** What a run left behind after the first operation that failed. *)
Fixpoint after_failure (tr : list Event) : list Event :=
  match tr with
  | [] => []
  | Invoked _ false :: tr' => tr'
  | _ :: tr' => after_failure tr'
  end.

End Reporter.

(** ** Reading the extracted tool calls *)

Module ToolCallReading.
Import Dialogs ToolCalling.

Section Accepted.
Context {Number : Type}.
Variable number_truthy : Number -> bool.
Variable JSON_parse : jsstring -> option (Json (Number := Number)).

(** The text [extractToolCalls] hands to [JSON.parse] for a captured body:
    the trimmed body, cut down to its brace span when it has one. *)
Definition json_text (body : jsstring) : jsstring :=
  match brace_span (trim body) with
  | Some m => m
  | None => trim body
  end.

(** The name and the arguments of a body that passes the validation of the
    loop: it parses to an object whose [name] and [arguments] are truthy. *)
Definition accepted (body : jsstring) : option (Json * Json) :=
  match JSON_parse (json_text body) with
  | Some (JObject fields) =>
      match field (units "name") fields, field (units "arguments") fields with
      | Some n, Some a =>
          if truthy number_truthy (Some n) && truthy number_truthy (Some a)
          then Some (n, a) else None
      | _, _ => None
      end
  | _ => None
  end.

(** The id a body brings, when it parses to an object with a truthy [id]. *)
Definition own_id (body : jsstring) : option Json :=
  match JSON_parse (json_text body) with
  | Some (JObject fields) =>
      if truthy number_truthy (field (units "id") fields)
      then field (units "id") fields else None
  | _ => None
  end.

End Accepted.

(** The text [{"name":"scan","arguments":{}}], and [JSON.parse] on the texts
    of the examples: that text, and [not json], on which it throws. *)
Definition scan_call : jsstring :=
  units "{" ++ quote ++ units "name" ++ quote ++ units ":"
    ++ quote ++ units "scan" ++ quote ++ units ","
    ++ quote ++ units "arguments" ++ quote ++ units ":{}}".

Definition parse_examples (s : jsstring) : option (Json (Number := N)) :=
  if bool_decide (s = scan_call)
  then Some (JObject [(units "name", JString (units "scan"));
                      (units "arguments", JObject [])])
  else None.

(** A reply with a good call, a body that is no JSON, and a good call with
    text around its braces. *)
Definition three_bodies : jsstring :=
  units "First <tool_call>" ++ scan_call
    ++ units "</tool_call> then <tool_call>not json</tool_call> and <tool_call> run "
    ++ scan_call ++ units " now </tool_call>.".

End ToolCallReading.

(** * Properties *)

Example format_gb_20 : format_gb (20 * GB) = "20.00".
Proof. vm_compute. reflexivity. Qed.

Example format_gb_5_and_a_half : format_gb (5 * GB + GB / 2) = "5.50".
Proof. vm_compute. reflexivity. Qed.

(** ** The planner *)

Section PlannerProperties.
Import Snapshot Planner.

Lemma push_step_length acc t d a c :
  length (push_step acc t d a c) = S (length acc).
Proof. unfold push_step. rewrite length_app. simpl. lia. Qed.

(** A list of steps is numbered when its numbers are 1, 2, ..., n. *)
Lemma push_step_numbered acc t d a c :
  List.map step_number acc = seq 1 (length acc) ->
  List.map step_number (push_step acc t d a c)
  = seq 1 (length (push_step acc t d a c)).
Proof.
  intros Hacc. rewrite push_step_length. unfold push_step.
  rewrite map_app, Hacc. simpl List.map.
  replace (S (length acc)) with (length acc + 1)%nat at 2 by lia.
  rewrite seq_app. simpl. reflexivity.
Qed.

Lemma push_backup_numbered srcs : forall acc,
  List.map step_number acc = seq 1 (length acc) ->
  List.map step_number (foldl push_backup acc srcs)
  = seq 1 (length (foldl push_backup acc srcs)).
Proof.
  induction srcs as [|s srcs IH]; intros acc Hacc; simpl; [exact Hacc|].
  apply IH. unfold push_backup. destruct (has_data s); [|exact Hacc].
  now apply push_step_numbered.
Qed.

Lemma push_delete_numbered srcs : forall acc,
  List.map step_number acc = seq 1 (length acc) ->
  List.map step_number (foldl push_delete acc srcs)
  = seq 1 (length (foldl push_delete acc srcs)).
Proof.
  induction srcs as [|s srcs IH]; intros acc Hacc; simpl; [exact Hacc|].
  apply IH. now apply push_step_numbered.
Qed.

Lemma make_steps_numbered target sources new_size :
  List.map step_number (make_steps target sources new_size)
  = seq 1 (length (make_steps target sources new_size)).
Proof.
  unfold make_steps. apply push_step_numbered, push_delete_numbered,
    push_backup_numbered. reflexivity.
Qed.

(** The backup block: what [foldl push_backup] appends to the steps so far. *)
Lemma push_backup_block srcs : forall acc,
  exists bs,
    foldl push_backup acc srcs = acc ++ bs
    /\ Forall (fun b => action_type b = UserManual /\ can_automate b = false) bs
    /\ (forall s, In s srcs -> has_data s = true ->
          exists b, In b bs /\ description b = backup_description s)
    /\ (bs = [] -> forall s, In s srcs -> has_data s = false).
Proof.
  induction srcs as [|s srcs IH]; intros acc; simpl.
  - exists []. rewrite app_nil_r. repeat split; [constructor | | ];
      intros; contradiction.
  - destruct (IH (push_backup acc s)) as (bs & Heq & Hall & Hin & Hnil).
    unfold push_backup in *. destruct (has_data s) eqn:Hs.
    + unfold push_step in Heq. rewrite <- app_assoc in Heq.
      eexists. split; [exact Heq|]. split; [|split].
      * constructor; [simpl; auto | exact Hall].
      * intros s' [->|Hs'] Hd.
        -- eexists. split; [left; reflexivity | reflexivity].
        -- destruct (Hin s' Hs' Hd) as (b & Hb & Hdesc).
           exists b. split; [right; exact Hb | exact Hdesc].
      * intros Habs. discriminate Habs.
    + exists bs. split; [exact Heq|]. split; [exact Hall|]. split.
      * intros s' [->|Hs'] Hd; [congruence | now apply Hin].
      * intros Hbs s' [->|Hs']; [exact Hs | now apply Hnil].
Qed.

(** The delete block: one step per source, in the order of the sources. *)
Lemma push_delete_block srcs : forall acc,
  exists ds,
    foldl push_delete acc srcs = acc ++ ds
    /\ Forall (fun d => action_type d = AppAssistedManual) ds
    /\ List.map title ds = List.map delete_title srcs.
Proof.
  induction srcs as [|s srcs IH]; intros acc; simpl.
  - exists []. rewrite app_nil_r. repeat split; constructor.
  - destruct (IH (push_delete acc s)) as (ds & Heq & Hall & Htitles).
    unfold push_delete, push_step in Heq. rewrite <- app_assoc in Heq.
    eexists. split; [exact Heq|]. split.
    + constructor; [reflexivity | exact Hall].
    + simpl. now rewrite Htitles.
Qed.

Lemma backup_warning_listed sources desired freed s :
  In s sources -> has_data s = true ->
  In (backup_warning s) (make_warnings sources desired freed).
Proof.
  intros Hs Hd. unfold make_warnings. apply in_or_app. left.
  apply in_map, filter_In. auto.
Qed.

(** The planner adds to the target what was asked for, capped by what the
    walk freed. *)
Lemma plan_target_new_size snap tid desired plan target :
  plan_reallocation snap tid desired = inr plan ->
  find_partition snap tid = Some target ->
  target_new_size plan
  = total_size target + Z.min desired (total_space_freed plan).
Proof.
  unfold plan_reallocation. intros Hplan Hfind. rewrite Hfind in Hplan.
  destruct (desired <=? 0); [discriminate|].
  injection Hplan as <-. reflexivity.
Qed.

Lemma example_plan_computed :
  plan_reallocation example_disk "partition-0-1" (15 * GB) = inr example_plan.
Proof. vm_compute. reflexivity. Qed.

(** On the documented request the model and the printed result agree on the
    sources, the freed space and the whole step list up to the elided text of
    the backup step; they differ on [target_new_size]. *)
Lemma example_plan_against_documented :
  target_partition_id example_plan = target_partition_id documented_plan
  /\ source_partitions example_plan = source_partitions documented_plan
  /\ total_space_freed example_plan = total_space_freed documented_plan
  /\ List.map step_number (steps example_plan)
     = List.map step_number (steps documented_plan)
  /\ List.map title (steps example_plan) = List.map title (steps documented_plan)
  /\ List.map action_type (steps example_plan)
     = List.map action_type (steps documented_plan)
  /\ List.map can_automate (steps example_plan)
     = List.map can_automate (steps documented_plan)
  /\ List.map description (tail (steps example_plan))
     = List.map description (tail (steps documented_plan))
  /\ target_new_size example_plan = 65 * GB
  /\ target_new_size documented_plan = 70 * GB.
Proof. vm_compute. repeat split; reflexivity. Qed.

(** C1 (code defect).  The claim asks for
    [target_new_size = target.total_size + min(desired, total_space_freed)],
    65GB on the disk [C:50GB][E:20GB,5GB used][F:30GB] with 15GB desired.
    The result the feature guide prints for that very request frees 20GB and
    carries [target_new_size = 75161927680], which is the current size plus
    all the freed space (70GB), while the expand step of the same result
    says 65GB. *)
Theorem documented_plan_adds_all_freed_space :
  find_partition example_disk "partition-0-1"
  = Some (mk_partition "partition-0-1" "C:" 0 (50 * GB) (50 * GB))
  /\ total_space_freed documented_plan = 20 * GB
  /\ target_new_size documented_plan = 50 * GB + total_space_freed documented_plan
  /\ 50 * GB + Z.min (15 * GB) (total_space_freed documented_plan) = 65 * GB
  /\ target_new_size documented_plan
     <> 50 * GB + Z.min (15 * GB) (total_space_freed documented_plan)
  /\ List.map description (List.filter
        (fun s => match action_type s with AppAutomated => true | _ => false end)
        (steps documented_plan))
     = ["Expand C: from 50.00 GB to 65.00 GB (+15.00 GB)"].
Proof.
  repeat split; try (vm_compute; reflexivity).
  vm_compute. discriminate.
Qed.

(** C2.  Every plan of the planner numbers its steps 1, 2, ..., n; the steps
    are a block of [UserManual] backup steps, then one [AppAssistedManual]
    delete step per source partition, then the single [AppAutomated] expand
    step; and every source partition with data has its backup step in the
    first block and its warning among the warnings. *)
Theorem plan_steps_numbered_and_ordered snap tid desired plan :
  plan_reallocation snap tid desired = inr plan ->
  List.map step_number (steps plan) = seq 1 (length (steps plan))
  /\ exists backups deletes expand,
       steps plan = backups ++ deletes ++ [expand]
       /\ Forall (fun b => action_type b = UserManual) backups
       /\ Forall (fun d => action_type d = AppAssistedManual) deletes
       /\ List.map title deletes
          = List.map delete_title (source_partitions plan)
       /\ action_type expand = AppAutomated
       /\ (forall s, In s (source_partitions plan) -> 0 < used_space s ->
             backups <> []
             /\ (exists b, In b backups /\ description b = backup_description s)
             /\ In (backup_warning s) (warnings plan)).
Proof.
  unfold plan_reallocation. intros Hplan.
  destruct (find_partition snap tid) as [target|]; [|discriminate].
  destruct (desired <=? 0); [discriminate|].
  injection Hplan as <-. simpl. split; [apply make_steps_numbered|].
  unfold make_steps, push_step.
  set (sources := List.map to_source _).
  destruct (push_backup_block sources []) as (bs & Hbs & Hman & Hcover & Hnil).
  destruct (push_delete_block sources (foldl push_backup [] sources))
    as (ds & Hds & Hdel & Htitles).
  rewrite Hds, Hbs, (app_nil_l bs).
  eexists bs, ds, _. split; [rewrite <- app_assoc; reflexivity|].
  split; [eapply Forall_impl; [exact Hman | intros ? []; assumption]|].
  split; [exact Hdel|]. split; [exact Htitles|]. split; [reflexivity|].
  intros s Hs Hused.
  assert (Hd : has_data s = true) by (unfold has_data; lia).
  split; [|split].
  - intros Hempty. specialize (Hnil Hempty s Hs). congruence.
  - now apply Hcover.
  - now apply backup_warning_listed.
Qed.

(** The printed result of the feature guide has the same shape. *)
Example documented_plan_steps :
  List.map step_number (steps documented_plan) = seq 1 3
  /\ List.map action_type (steps documented_plan)
     = [UserManual; AppAssistedManual; AppAutomated]
  /\ List.map title (tail (steps documented_plan))
     = List.map delete_title (source_partitions documented_plan) ++ ["Expand C:"]
  /\ length (warnings documented_plan) = 1%nat.
Proof. vm_compute. repeat split; reflexivity. Qed.

Lemma plan_steps_numbered_and_ordered_witness :
  plan_reallocation example_disk "partition-0-1" (15 * GB) = inr example_plan
  /\ List.map step_number (steps example_plan)
     = seq 1 (length (steps example_plan)).
Proof.
  split; [vm_compute; reflexivity|].
  apply (plan_steps_numbered_and_ordered example_disk "partition-0-1" (15 * GB)).
  vm_compute; reflexivity.
Defined.

Section CommandProperties.
Import Snapshot Planner.
Context {System : Type}.
Variable get_disk_layout_snapshot : System -> DiskLayoutSnapshot * System.


End CommandProperties.


End PlannerProperties.

(** ** The validator *)

Section ValidatorProperties.
Import Snapshot Resize Validator.

(** On whole byte counts the rational bound and its ceiling say the same. *)
Lemma required_space_ceiling cfg used target :
  (required_space cfg used <= inject_Z target)%Q
  <-> min_safe_size cfg used <= target.
Proof.
  unfold min_safe_size. split; intros H.
  - rewrite <- (Qceiling_Z target). now apply Qceiling_resp_le.
  - eapply Qle_trans; [apply Qle_ceiling|]. now rewrite <- Zle_Qle.
Qed.

Lemma used_below_required_space cfg used :
  (0 <= safety_margin cfg)%Q -> 0 <= used ->
  (inject_Z used <= required_space cfg used)%Q.
Proof.
  intros Hm Hu. unfold required_space.
  assert (Hu' : (inject_Z 0 <= inject_Z used)%Q) by (rewrite <- Zle_Qle; exact Hu).
  change (inject_Z 0) with 0%Q in Hu'.
  pose proof (Qmult_le_0_compat _ _ Hu' Hm) as Hprod.
  set (u := inject_Z used) in *. set (m := safety_margin cfg) in *.
  lra.
Qed.

(** The two tests of the implementation plan hold of the model. *)
Example test_calculate_safe_shrink_size :
  forall p, used_space p = 40000000000 ->
  48000000000 <= calculate_safe_shrink_size margin_20 p.
Proof.
  intros p Hp. unfold calculate_safe_shrink_size. rewrite Hp.
  vm_compute. discriminate.
Qed.

Example test_shrink_below_used_space_fails :
  forall p, used_space p = 60000000000 ->
  exists min, validate_shrink_to margin_20 p 50000000000
              = inl (InsufficientSpace min).
Proof.
  intros p Hp. unfold validate_shrink_to. rewrite Hp. eexists. reflexivity.
Qed.

(** C4.  A shrink is approved only when
    [target_size >= used_space * (1 + safety_margin)], so never below the used
    space; a shrink that reaches the space check and breaks the bound fails
    with [InsufficientSpace] carrying the minimum safe size; shrinking E: with
    5GB used to 4GB under a margin of 0.10 fails with a minimum safe size of
    5.5GB. *)
Theorem shrink_never_below_used_space cfg snap pid target override p :
  (0 <= safety_margin cfg)%Q ->
  find_partition snap pid = Some p ->
  0 <= used_space p ->
  target < total_size p ->
  (forall approved,
     validate_resize cfg snap pid target override = inr approved ->
     (required_space cfg (used_space p) <= inject_Z target)%Q
     /\ used_space p <= target
     /\ min_safe_size cfg (used_space p) <= safe_size approved)
  /\ (protected p && negb override = false ->
      ~ (required_space cfg (used_space p) <= inject_Z target)%Q ->
      validate_resize cfg snap pid target override
      = inl (InsufficientSpace (min_safe_size cfg (used_space p))))
  /\ validate_resize margin_10 disk_with_e "E" (4 * GB) false
     = inl (InsufficientSpace (5 * GB + GB / 2)).
Proof.
  intros Hm Hfind Hused Hshrink. unfold validate_resize. rewrite Hfind.
  unfold direction_of. destruct (Z.ltb_spec target (total_size p)); [|lia].
  split; [|split].
  - intros approved Happ.
    destruct (protected p && negb override); [discriminate|].
    destruct (Qle_bool (required_space cfg (used_space p)) (inject_Z target))
      eqn:Hle; simpl in Happ; [|discriminate].
    apply Qle_bool_iff in Hle.
    destruct (mounted p && _); [discriminate|].
    destruct (negb _); [discriminate|].
    injection Happ as <-. simpl. split; [exact Hle|]. split; [|lia].
    rewrite Zle_Qle. eapply Qle_trans; [|exact Hle].
    now apply used_below_required_space.
  - intros Hprot Hviol. rewrite Hprot.
    destruct (Qle_bool (required_space cfg (used_space p)) (inject_Z target))
      eqn:Hle; simpl; [|reflexivity].
    apply Qle_bool_iff in Hle. contradiction.
  - vm_compute. reflexivity.
Qed.

Lemma shrink_never_below_used_space_witness :
  validate_resize margin_10 disk_with_e "E" (4 * GB) false
  = inl (InsufficientSpace (min_safe_size margin_10 (used_space partition_e))).
Proof.
  refine (proj1 (proj2
    (shrink_never_below_used_space margin_10 disk_with_e "E" (4 * GB) false
       partition_e _ _ _ _)) _ _).
  - vm_compute. discriminate.
  - reflexivity.
  - vm_compute. discriminate.
  - vm_compute. reflexivity.
  - reflexivity.
  - vm_compute. intros H. apply H. reflexivity.
Defined.

End ValidatorProperties.

(** ** The transaction engine *)

Section EngineProperties.
Import Snapshot Resize Engine.
Context {World Error Transaction : Type}.
Variable tools : Tools World Error Transaction.

Lemma shrinking_not_growing self :
  is_shrinking self = true -> is_growing self = false.
Proof. unfold is_shrinking, is_growing. lia. Qed.

(** Follow [execute] along every outcome of every collaborator. *)
Ltac tool_outcome :=
  match goal with
  | |- context [validate_preconditions tools ?s ?w] =>
      destruct (validate_preconditions tools s w) as [[?|[]] ?]
  | |- context [calculate_safe_resize_size tools ?s ?w] =>
      destruct (calculate_safe_resize_size tools s w) as [[?|?] ?]
  | |- context [require_backup_confirmation tools ?s ?w] =>
      destruct (require_backup_confirmation tools s w) as [[?|[]] ?]
  | |- context [transaction_begin tools ?s ?w] =>
      destruct (transaction_begin tools s w) as [[?|?] ?]
  | |- context [resize_filesystem tools ?s ?z ?w] =>
      destruct (resize_filesystem tools s z w) as [[?|[]] ?]
  | |- context [resize_partition_table tools ?s ?z ?w] =>
      destruct (resize_partition_table tools s z w) as [[?|[]] ?]
  | |- context [verify_integrity tools ?s ?w] =>
      destruct (verify_integrity tools s w) as [[?|[]] ?]
  | |- context [transaction_commit tools ?t ?w] =>
      destruct (transaction_commit tools t w) as [[?|[]] ?]
  | |- context [transaction_rollback tools ?t ?w] =>
      destruct (transaction_rollback tools t w) as [? ?]
  end.

Ltac all_paths :=
  unfold trace_of, result_of, world_of, run_execute, execute, bind, call,
    emit_progress, map_err_rollback, ret;
  destruct (is_shrinking _) eqn:?; destruct (is_growing _) eqn:?;
  cbn [fst snd app is_ok];
  repeat (tool_outcome; cbn [fst snd app is_ok]).

(** C5.  A run that reaches [Committed] went through exactly the phases of its
    direction: the filesystem before the partition table when shrinking, the
    partition table before the filesystem when growing, then the
    verification, whatever the collaborators are. *)
Theorem commit_only_after_ordered_phases self w :
  In Committed (phases (trace_of tools self w)) ->
  (is_shrinking self = true ->
   phases (trace_of tools self w)
   = [Validating; SafeSizeCalculated; BackupConfirmed; TransactionOpen;
      FilesystemResized; PartitionTableUpdated; Verifying; Committed])
  /\ (is_growing self = true ->
      phases (trace_of tools self w)
      = [Validating; SafeSizeCalculated; BackupConfirmed; TransactionOpen;
         PartitionTableUpdated; FilesystemResized; Verifying; Committed])
  /\ (exists size,
        completed (trace_of tools self w)
        = [ValidatePreconditions; CalculateSafeResizeSize;
           RequireBackupConfirmation; TransactionBegin]
          ++ (if is_shrinking self then [ResizeFilesystem size] else [])
          ++ [ResizePartitionTable size]
          ++ (if is_growing self then [ResizeFilesystem size] else [])
          ++ [VerifyIntegrity; TransactionCommit]).
Proof.
  pose proof (shrinking_not_growing self) as Hexcl.
  revert Hexcl. all_paths; intros Hexcl Hin; cbn in Hin;
    try (exfalso; intuition discriminate);
    (split; [|split]);
    try (intros; reflexivity);
    try (intros; exfalso; intuition discriminate);
    try (eexists; reflexivity).
Qed.

Lemma acknowledged_before_open_sound tr :
  acknowledged_before_open tr = true ->
  forall tr1 ok tr2,
    tr = tr1 ++ Invoked TransactionBegin ok :: tr2 ->
    In (Invoked RequireBackupConfirmation true) tr1.
Proof.
  induction tr as [|e tr IH]; intros Hack tr1 ok tr2 Heq.
  - destruct tr1; discriminate.
  - destruct tr1 as [|e1 tr1]; simpl in Heq; injection Heq as -> Htr.
    + simpl in Hack. discriminate.
    + destruct e1 as [[] []| |]; simpl in Hack;
        try (right; eapply IH; [exact Hack | exact Htr]);
        try discriminate.
      left. reflexivity.
Qed.

Lemma backup_confirmed_before_begin self w :
  acknowledged_before_open (trace_of tools self w) = true.
Proof. all_paths; reflexivity. Qed.

(** A failed commit is returned as it is: the rollback is not invoked. *)
Lemma failed_commit_without_rollback self w :
  In (Invoked TransactionCommit false) (trace_of tools self w) ->
  ~ In Rollback (trace_of tools self w)
  /\ ~ In Committed (phases (trace_of tools self w))
  /\ is_ok (result_of tools self w) = false.
Proof.
  all_paths; cbn; intros Hin;
    repeat (destruct Hin as [Hin|Hin]; [try discriminate Hin|]);
    try contradiction;
    repeat split; try reflexivity; intros Habs; intuition discriminate.
Qed.

(** A failure of the filesystem resize, of the partition-table update or of
    the verification invokes the rollback, and the run ends there. *)
Lemma failed_phase_invokes_rollback self w c :
  In (Invoked c false) (trace_of tools self w) ->
  phase_of_call c = FilesystemResized
  \/ phase_of_call c = PartitionTableUpdated
  \/ phase_of_call c = Verifying ->
  last (trace_of tools self w) = Some Rollback
  /\ is_ok (result_of tools self w) = false.
Proof.
  all_paths; cbn; intros Hin Hc;
    repeat (destruct Hin as [Hin|Hin];
            [first [discriminate Hin | injection Hin as <-]|]);
    try contradiction;
    cbn in Hc; first [split; reflexivity | exfalso; intuition discriminate].
Qed.

Import Reporter.

(** Whenever the rollback is invoked, the transition to RollingBack is
    followed by no progress event: the run is not as the claim has it. *)
Lemma rollback_breaks_one_event_per_transition self w :
  In Rollback (trace_of tools self w) ->
  one_event_per_transition (trace_of tools self w) = false.
Proof.
  all_paths; cbn; intros H; try reflexivity; exfalso; intuition discriminate.
Qed.

(** C7, amended.  In every run of [execute]:
    - the percentages of the progress events increase strictly;
    - each operation that completed is followed at once by exactly one
      progress event, no event comes otherwise, and an operation that failed
      ends the run, at most the rollback following it;
    - the first phase is always attempted and the phases attempted are those
      of the direction, in order and without a gap, each one but the last
      having completed; the events carry, in order, the percentages of the
      phases that completed;
    - the run succeeds exactly when no phase failed, and then every phase of
      the direction completed and every percentage was emitted;
    - when a phase failed it is the only one, and nothing is emitted after
      it: what follows it is nothing at all or the rollback alone. *)
Theorem progress_event_after_each_completed_phase self w :
  let tr := trace_of tools self w in
  StronglySorted Z.lt (percentages tr)
  /\ one_event_per_phase tr = true
  /\ attempted tr <> []
  /\ attempted tr = firstn (length (attempted tr)) (reference_phases self)
  /\ attempted tr = phases tr ++ failed tr
  /\ percentages tr = firstn (length (phases tr)) (reference_percentages self)
  /\ (result_of tools self w = inr success <-> failed tr = [])
  /\ (failed tr = [] ->
      phases tr = reference_phases self
      /\ percentages tr = reference_percentages self)
  /\ (length (failed tr) <= 1)%nat
  /\ (after_failure tr = [] \/ after_failure tr = [Rollback]).
Proof.
  cbn zeta. unfold reference_percentages, reference_phases.
  pose proof (shrinking_not_growing self) as Hexcl.
  revert Hexcl. all_paths; intros Hexcl;
    try (specialize (Hexcl eq_refl); discriminate Hexcl);
    cbn;
    (split; [repeat (constructor; try lia)|]);
    (split; [reflexivity|]);
    (split; [discriminate|]);
    (split; [reflexivity|]);
    (split; [reflexivity|]);
    (split; [reflexivity|]);
    (split; [split; intros H; first [reflexivity | discriminate H]|]);
    (split; [intros H; first [discriminate H | split; reflexivity]|]);
    (split; [lia|]);
    first [left; reflexivity | right; reflexivity].
Qed.

End EngineProperties.

Lemma progress_event_after_each_completed_phase_witness :
  Reporter.failed
    (Engine.trace_of DiskWorld.tools DiskWorld.shrink_d
       (DiskWorld.initial_world DiskWorld.disk_d DiskWorld.no_faults)) = []
  /\ Engine.percentages
       (Engine.trace_of DiskWorld.tools DiskWorld.shrink_d
          (DiskWorld.initial_world DiskWorld.disk_d DiskWorld.no_faults))
     = [5; 10; 15; 20; 60; 70; 95; 100].
Proof.
  assert (H : Reporter.failed
                (Engine.trace_of DiskWorld.tools DiskWorld.shrink_d
                   (DiskWorld.initial_world DiskWorld.disk_d
                      DiskWorld.no_faults)) = [])
    by (vm_compute; reflexivity).
  split; [exact H|].
  destruct (progress_event_after_each_completed_phase DiskWorld.tools
              DiskWorld.shrink_d
              (DiskWorld.initial_world DiskWorld.disk_d DiskWorld.no_faults))
    as (_ & _ & _ & _ & _ & _ & _ & Hall & _).
  cbn zeta in Hall. rewrite (proj2 (Hall H)). vm_compute. reflexivity.
Defined.

(** C7 as stated fails on a shrink whose partition-table update fails: the
    run makes six transitions, the last one to RollingBack, and emits five
    events. *)
Lemma rollback_transition_emits_no_event :
  Reporter.transitions
    (Engine.trace_of DiskWorld.tools DiskWorld.shrink_d
       (DiskWorld.initial_world DiskWorld.disk_d DiskWorld.table_failure))
  = [Reporter.Entered Engine.Validating;
     Reporter.Entered Engine.SafeSizeCalculated;
     Reporter.Entered Engine.BackupConfirmed;
     Reporter.Entered Engine.TransactionOpen;
     Reporter.Entered Engine.FilesystemResized;
     Reporter.RollingBack]
  /\ Engine.percentages
       (Engine.trace_of DiskWorld.tools DiskWorld.shrink_d
          (DiskWorld.initial_world DiskWorld.disk_d DiskWorld.table_failure))
     = [5; 10; 15; 20; 60]
  /\ ~ Reporter.one_event_per_transition_claim
         (Engine.trace_of DiskWorld.tools DiskWorld.shrink_d
            (DiskWorld.initial_world DiskWorld.disk_d DiskWorld.table_failure)).
Proof.
  split; [vm_compute; reflexivity|]. split; [vm_compute; reflexivity|].
  intros [_ H]. vm_compute in H. discriminate H.
Qed.

(** ** The confirmation dialogs *)

Section DialogProperties.
Import Dialogs.

Lemma allChecked_all_four checks :
  allChecked checks = true <->
  hasBackup checks = true /\ verifiedBackup checks = true
  /\ recentBackup checks = true /\ understandsRisk checks = true.
Proof.
  destruct checks as [[] [] [] []]; cbn; intuition discriminate.
Qed.

Lemma backup_session_confirm evs : forall checks c,
  In (c, OnConfirm) (backup_session checks evs) -> allChecked c = true.
Proof.
  induction evs as [|ev evs IH]; intros checks c Hin; [contradiction|].
  simpl in Hin. destruct ev as [key| |]; simpl in Hin.
  - eapply IH, Hin.
  - unfold continue_disabled, backup_handleConfirm in Hin.
    destruct (allChecked checks) eqn:Hall; simpl in Hin.
    + destruct Hin as [Heq|Hin]; [congruence | eapply IH, Hin].
    + eapply IH, Hin.
  - destruct Hin as [Heq|Hin]; [discriminate | eapply IH, Hin].
Qed.

Lemma units_SHRINK : units "SHRINK" = [83; 72; 82; 73; 78; 75]%N.
Proof. reflexivity. Qed.

Lemma isConfirmed_iff text :
  isConfirmed text = true <-> toUpperCase text = units "SHRINK".
Proof. unfold isConfirmed. apply bool_decide_eq_true. Qed.

Lemma shrink_session_confirm evs : forall text t,
  In (t, OnConfirm) (shrink_session text evs) -> isConfirmed t = true.
Proof.
  induction evs as [|ev evs IH]; intros text t Hin; [contradiction|].
  simpl in Hin. destruct ev as [value| |]; simpl in Hin.
  - eapply IH, Hin.
  - unfold start_disabled, shrink_handleConfirm in Hin.
    destruct (isConfirmed text) eqn:Hc; simpl in Hin.
    + destruct Hin as [Heq|Hin]; [congruence | eapply IH, Hin].
    + eapply IH, Hin.
  - destruct Hin as [Heq|Hin]; [discriminate | eapply IH, Hin].
Qed.

(** The upper case of a unit is one unit, or two or three capital letters
    that begin with F or are SS or ST. *)
Lemma upper_unit_shapes c :
  (exists y, upper_unit c = [y])
  \/ (exists z rest, upper_unit c = 70%N :: z :: rest)
  \/ upper_unit c = [83; 83]%N
  \/ upper_unit c = [83; 84]%N.
Proof.
  unfold upper_unit.
  repeat (match goal with
          | |- context [if ?b then _ else _] => destruct b
          end);
    first [ left; eexists; reflexivity
          | right; left; do 2 eexists; reflexivity
          | right; right; left; reflexivity
          | right; right; right; reflexivity ].
Qed.

Lemma matches_letter_spec x c :
  matches_letter x c = true <->
  c = x \/ c = (x + 32)%N \/ (x = 73%N /\ c = 305%N) \/ (x = 83%N /\ c = 383%N).
Proof.
  unfold matches_letter.
  rewrite !orb_true_iff, !andb_true_iff, !N.eqb_eq. tauto.
Qed.

(** The units whose upper case is a given capital letter. *)
Lemma upper_unit_letter x c :
  (65 <= x <= 90)%N ->
  upper_unit c = [x] <-> matches_letter x c = true.
Proof.
  intros Hx. rewrite matches_letter_spec. unfold upper_unit.
  destruct (N.leb_spec 97 c), (N.leb_spec c 122); cbn [andb];
    [split; [intros Heq; injection Heq as Heq; lia | intros Hm; f_equal; lia]
    | | | ];
    repeat (match goal with
            | |- context [(c =? ?k)%N] =>
                destruct (N.eqb_spec c k); [subst c|]; cbn [orb]
            end);
    (split; [intros Heq; first [discriminate Heq | injection Heq as Heq; lia]
            | intros Hm; first [exfalso; lia | f_equal; lia]]).
Qed.

Lemma toUpperCase_cons c rest :
  toUpperCase (c :: rest) = upper_unit c ++ toUpperCase rest.
Proof. reflexivity. Qed.

(** Peel one letter, not F, off an upper-cased text in which neither S nor T
    comes next. *)
Lemma toUpperCase_head text x y out :
  (65 <= x <= 90)%N -> x <> 70%N -> y <> 83%N -> y <> 84%N ->
  toUpperCase text = x :: y :: out ->
  exists c rest,
    text = c :: rest /\ matches_letter x c = true
    /\ toUpperCase rest = y :: out.
Proof.
  intros Hx Hf Hs Ht Heq. destruct text as [|c rest]; [discriminate|].
  rewrite toUpperCase_cons in Heq.
  destruct (upper_unit_shapes c) as [[z Hz]|[(z & more & Hff)|[Hss|Hst]]].
  - rewrite Hz in Heq. injection Heq as -> Hrest.
    exists c, rest. split; [reflexivity|]. split; [|exact Hrest].
    now apply upper_unit_letter.
  - rewrite Hff in Heq. injection Heq as Hx' _. congruence.
  - rewrite Hss in Heq. injection Heq as _ Hy'. congruence.
  - rewrite Hst in Heq. injection Heq as _ Hy'. congruence.
Qed.

Lemma upper_unit_not_nil c : upper_unit c <> [].
Proof.
  destruct (upper_unit_shapes c) as [[z Hz]|[(z & more & Hff)|[Hss|Hst]]];
    congruence.
Qed.

Lemma toUpperCase_last text x :
  (65 <= x <= 90)%N ->
  toUpperCase text = [x] ->
  exists c, text = [c] /\ matches_letter x c = true.
Proof.
  intros Hx Heq. destruct text as [|c rest]; [discriminate|].
  rewrite toUpperCase_cons in Heq.
  destruct (upper_unit_shapes c) as [[z Hz]|[(z & more & Hff)|[Hss|Hst]]].
  - rewrite Hz in Heq. injection Heq as -> Hrest.
    destruct rest as [|c' rest].
    + exists c. split; [reflexivity|]. now apply upper_unit_letter.
    + rewrite toUpperCase_cons in Hrest.
      apply app_eq_nil in Hrest as [Hnil _].
      now apply upper_unit_not_nil in Hnil.
  - rewrite Hff in Heq. discriminate.
  - rewrite Hss in Heq. discriminate.
  - rewrite Hst in Heq. discriminate.
Qed.

(** The texts the dialog accepts are the six-letter spellings of the word,
    in either case. *)
Lemma isConfirmed_spells text : isConfirmed text = spells_shrink text.
Proof.
  apply eq_true_iff_eq. rewrite isConfirmed_iff, units_SHRINK. split.
  - intros H.
    apply toUpperCase_head in H as (c1 & t1 & -> & H1 & H); [|lia..].
    apply toUpperCase_head in H as (c2 & t2 & -> & H2 & H); [|lia..].
    apply toUpperCase_head in H as (c3 & t3 & -> & H3 & H); [|lia..].
    apply toUpperCase_head in H as (c4 & t4 & -> & H4 & H); [|lia..].
    apply toUpperCase_head in H as (c5 & t5 & -> & H5 & H); [|lia..].
    apply toUpperCase_last in H as (c6 & -> & H6); [|lia].
    cbn [spells_shrink]. now rewrite H1, H2, H3, H4, H5, H6.
  - intros H. destruct text as [|c1 [|c2 [|c3 [|c4 [|c5 [|c6 [|c7 t]]]]]]];
      try discriminate H.
    cbn [spells_shrink] in H.
    repeat (apply andb_true_iff in H as [H ?]).
    repeat rewrite toUpperCase_cons.
    repeat match goal with
           | Hm : matches_letter ?x ?c = true |- _ =>
               apply upper_unit_letter in Hm; [rewrite Hm; clear Hm | lia]
           end.
    reflexivity.
Qed.

(** C10.  [onConfirm] fires only on a text whose upper case is exactly SHRINK;
    on every other text the start button is disabled and neither the button
    nor [handleConfirm] invokes it; on such a text the button is enabled and
    fires it; "shrink" and "SHRINK" are accepted, other words are not. *)
Theorem shrink_confirmation_requires_SHRINK evs text :
  (In (text, OnConfirm) (shrink_session [] evs) ->
   toUpperCase text = units "SHRINK")
  /\ (toUpperCase text <> units "SHRINK" ->
      start_disabled text = true
      /\ shrink_handleConfirm text = []
      /\ shrink_step text ClickStart = (text, []))
  /\ (toUpperCase text = units "SHRINK" ->
      start_disabled text = false
      /\ shrink_step text ClickStart = (text, [OnConfirm]))
  /\ isConfirmed (units "shrink") = true
  /\ isConfirmed (units "Shrink") = true
  /\ isConfirmed (units "RESIZE") = false
  /\ isConfirmed (units "SHRINKS") = false
  /\ isConfirmed (units "") = false.
Proof.
  split; [|split; [|split]].
  - intros Hin. apply isConfirmed_iff. eapply shrink_session_confirm, Hin.
  - intros Hne.
    assert (Hc : isConfirmed text = false).
    { destruct (isConfirmed text) eqn:Hc; [|reflexivity].
      apply isConfirmed_iff in Hc. contradiction. }
    unfold shrink_step, start_disabled, shrink_handleConfirm. rewrite Hc.
    repeat split.
  - intros Heq. apply isConfirmed_iff in Heq.
    unfold shrink_step, start_disabled, shrink_handleConfirm. rewrite Heq.
    repeat split.
  - repeat split; vm_compute; reflexivity.
Qed.

Lemma shrink_confirmation_requires_SHRINK_witness :
  In (units "shrink", OnConfirm)
     (shrink_session [] [ClickStart; ChangeText (units "shrink"); ClickStart])
  /\ toUpperCase (units "shrink") = units "SHRINK".
Proof.
  split; [vm_compute; left; reflexivity|].
  apply (shrink_confirmation_requires_SHRINK
           [ClickStart; ChangeText (units "shrink"); ClickStart]).
  vm_compute; left; reflexivity.
Defined.

End DialogProperties.

(** ** Backup acknowledgement *)

Section BackupGate.
Import Snapshot Resize Engine Dialogs.
Context {World Error Transaction : Type}.
Variable tools : Tools World Error Transaction.

(** C8.  [Transaction::begin] is invoked, and so [TransactionOpen] entered,
    only after the backup confirmation was given, for every operation
    (whatever the used space of its partitions); and in the
    backup-verification dialog [onConfirm] fires only with all four boxes
    checked, the continue button being dead otherwise. *)
Theorem transaction_needs_backup_acknowledgement self w evs checks :
  (forall tr1 ok tr2,
     trace_of tools self w = tr1 ++ Invoked TransactionBegin ok :: tr2 ->
     In (Invoked RequireBackupConfirmation true) tr1)
  /\ (In (checks, OnConfirm) (backup_session initial_checks evs) ->
      hasBackup checks = true /\ verifiedBackup checks = true
      /\ recentBackup checks = true /\ understandsRisk checks = true)
  /\ (allChecked checks = false ->
      continue_disabled checks = true
      /\ backup_handleConfirm checks = []
      /\ backup_step checks ClickContinue = (checks, [])).
Proof.
  split; [|split].
  - apply acknowledged_before_open_sound, backup_confirmed_before_begin.
  - intros Hin. apply allChecked_all_four.
    eapply backup_session_confirm, Hin.
  - intros Hall.
    unfold backup_step, continue_disabled, backup_handleConfirm.
    rewrite Hall. repeat split.
Qed.

End BackupGate.

Lemma transaction_needs_backup_acknowledgement_witness :
  In (Engine.Invoked Engine.RequireBackupConfirmation true)
     (firstn 6
        (Engine.trace_of DiskWorld.tools DiskWorld.shrink_d
           (DiskWorld.initial_world DiskWorld.disk_d DiskWorld.no_faults)))
  /\ Dialogs.hasBackup Dialogs.all_four = true.
Proof.
  destruct (transaction_needs_backup_acknowledgement DiskWorld.tools
              DiskWorld.shrink_d
              (DiskWorld.initial_world DiskWorld.disk_d DiskWorld.no_faults)
              Dialogs.careful_user Dialogs.all_four)
    as (Hengine & Hdialog & _).
  split.
  - apply (Hengine _ true
             (skipn 7
                (Engine.trace_of DiskWorld.tools DiskWorld.shrink_d
                   (DiskWorld.initial_world DiskWorld.disk_d
                      DiskWorld.no_faults)))).
    vm_compute. reflexivity.
  - apply Hdialog. vm_compute. left. reflexivity.
Defined.

Lemma commit_only_after_ordered_phases_witness :
  In Engine.Committed
     (Engine.phases
        (Engine.trace_of DiskWorld.tools DiskWorld.shrink_d
           (DiskWorld.initial_world DiskWorld.disk_d DiskWorld.no_faults)))
  /\ Engine.phases
       (Engine.trace_of DiskWorld.tools DiskWorld.shrink_d
          (DiskWorld.initial_world DiskWorld.disk_d DiskWorld.no_faults))
     = [Engine.Validating; Engine.SafeSizeCalculated; Engine.BackupConfirmed;
        Engine.TransactionOpen; Engine.FilesystemResized;
        Engine.PartitionTableUpdated; Engine.Verifying; Engine.Committed].
Proof.
  split; [vm_compute; tauto|].
  apply (commit_only_after_ordered_phases DiskWorld.tools DiskWorld.shrink_d
           (DiskWorld.initial_world DiskWorld.disk_d DiskWorld.no_faults)).
  - vm_compute; tauto.
  - vm_compute; reflexivity.
Defined.

(** ** Rollback over the disk *)

Section RollbackProperties.
Import Snapshot Resize Engine DiskWorld.

Ltac disk_paths :=
  unfold execute_resize, run_execute, execute, bind, call, emit_progress,
    map_err_rollback, ret, tools, initial_world;
  cbn [Engine.validate_preconditions Engine.calculate_safe_resize_size
       Engine.require_backup_confirmation Engine.transaction_begin
       Engine.resize_filesystem Engine.resize_partition_table
       Engine.verify_integrity Engine.transaction_commit
       Engine.transaction_rollback];
  unfold validate_preconditions, calculate_safe_resize_size,
    require_backup_confirmation, transaction_begin, resize_filesystem,
    resize_partition_table, verify_integrity, transaction_commit,
    transaction_rollback, record_checkpoint, with_disk, with_terminal;
  cbn.

(** Whenever the rollback was invoked the run ends with it, and either every
    compensating action succeeded, the disk reads as before the transaction
    and the transaction is [RolledBack], or one of them failed and the
    transaction is [Failed] with [RollbackFailed]. *)
Lemma rollback_restores_disk self d f :
  In Rollback (snd (snd (execute_resize self d f))) ->
  last (snd (snd (execute_resize self d f))) = Some Rollback
  /\ ((fst (execute_resize self d f) = inl OperationRolledBack
       /\ disk (fst (snd (execute_resize self d f))) = d
       /\ terminal (fst (snd (execute_resize self d f))) = RolledBack)
      \/ (fst (execute_resize self d f) = inl RollbackFailed
          /\ terminal (fst (snd (execute_resize self d f))) = Failed
          /\ exists i, compensation_fails f i = true)).
Proof.
  destruct f as [pf ba bf ft tt vf cf comp].
  destruct d as [ext fs].
  disk_paths.
  repeat (match goal with
          | |- context [if ?b then _ else _] => destruct b eqn:?; cbn
          | |- context [match ?o with Succeeds => _ | FailsLeaving _ => _ end] =>
              destruct o; cbn
          end);
    intros Hin;
    try (exfalso; intuition discriminate);
    (split; [reflexivity|]);
    first [ left; repeat split; reflexivity
          | right; repeat split; eauto ].
Qed.

Lemma compensate_pre_image wr d :
  compensate (pre_image wr d) (write wr d) = d.
Proof. destruct wr, d; reflexivity. Qed.

Lemma replay_without_failure_index cs : forall i j d,
  replay (fun _ => false) i cs d = replay (fun _ => false) j cs d.
Proof.
  induction cs as [|c cs IH]; intros i j d; simpl; [reflexivity|].
  apply IH.
Qed.

(** Replaying the checkpoints of any sequence of checkpointed writes in
    reverse order puts the disk back, also when a field was written several
    times. *)
Lemma replay_reverse_restores ws : forall cps d d0,
  replay (fun _ => false) 0 (rev cps) d = (true, d0) ->
  replay (fun _ => false) 0
    (rev (fst (perform ws cps d))) (snd (perform ws cps d)) = (true, d0).
Proof.
  induction ws as [|wr ws IH]; intros cps d d0 Hcps; simpl; [exact Hcps|].
  apply IH. rewrite rev_app_distr. simpl.
  rewrite compensate_pre_image.
  rewrite (replay_without_failure_index _ 1 0). exact Hcps.
Qed.

(** Replayed in recording order, the same checkpoints need not restore the
    disk. *)
Example replay_in_recording_order :
  let run := perform [WriteTable 80; WriteTable 60] [] disk_d in
  replay (fun _ => false) 0 (rev (fst run)) (snd run) = (true, disk_d)
  /\ replay (fun _ => false) 0 (fst run) (snd run)
     = (true, {| extent := 80; filesystem_size := 100 * GB |}).
Proof. vm_compute. split; reflexivity. Qed.

(** C6 (code defect).  The claim asks that a failure at any phase after
    [TransactionOpen] be rolled back.  The filesystem, partition-table and
    verification phases do so; the commit phase (phase 9 of [execute]) does
    not: when [transaction.commit()] fails the error is returned as it is,
    the rollback is not invoked, the disk keeps the new sizes and the
    transaction stays [Pending].  A failure of the partition-table tool in
    the same operation is rolled back. *)
Theorem commit_failure_is_not_rolled_back :
  fst (execute_resize shrink_d disk_d commit_failure) = inl CommitFailed
  /\ ~ In Rollback (snd (snd (execute_resize shrink_d disk_d commit_failure)))
  /\ disk (fst (snd (execute_resize shrink_d disk_d commit_failure)))
     = {| extent := 60 * GB; filesystem_size := 60 * GB |}
  /\ disk (fst (snd (execute_resize shrink_d disk_d commit_failure))) <> disk_d
  /\ terminal (fst (snd (execute_resize shrink_d disk_d commit_failure)))
     = Pending
  /\ fst (execute_resize shrink_d disk_d table_failure) = inl OperationRolledBack
  /\ disk (fst (snd (execute_resize shrink_d disk_d table_failure))) = disk_d.
Proof.
  vm_compute. repeat split; try reflexivity.
  - intros H. repeat (destruct H as [H|H]; [discriminate H|]). exact H.
  - discriminate.
Qed.

End RollbackProperties.

(** ** The registry *)

Section RegistryProperties.
Import Registry.

Lemma consistent_empty : consistent empty.
Proof.
  split; [|constructor]. intros tx pid. simpl. rewrite lookup_empty.
  split; [contradiction | discriminate].
Qed.

Lemma register_consistent pid st :
  consistent st -> consistent (snd (register pid st)).
Proof.
  intros [Hreg Hnodup]. unfold register.
  destruct (registry st !! pid) as [tx0|] eqn:Hlook; simpl; [split; assumption|].
  split.
  - intros tx pid'. simpl. destruct (decide (pid = pid')) as [<-|Hne].
    + rewrite lookup_insert_eq. split.
      * intros [Heq|Hin]; [congruence|].
        apply Hreg in Hin. congruence.
      * intros Heq. left. congruence.
    + rewrite lookup_insert_ne by exact Hne. rewrite <- Hreg. split.
      * intros [Heq|Hin]; [congruence | exact Hin].
      * intros Hin. right. exact Hin.
  - simpl. constructor; [|exact Hnodup].
    intros Hin. apply in_map_iff in Hin as ([tx pid'] & Heq & Hin).
    simpl in Heq. subst pid'. apply Hreg in Hin. congruence.
Qed.

Lemma nodup_filter_snd (f : nat * string -> bool) l :
  List.NoDup (List.map snd l) -> List.NoDup (List.map snd (List.filter f l)).
Proof.
  induction l as [|x l IH]; simpl; intros Hnd; [constructor|].
  inversion Hnd as [|? ? Hnotin Hnd']; subst.
  destruct (f x); [|now apply IH].
  simpl. constructor; [|now apply IH].
  intros Hin. apply Hnotin. apply in_map_iff in Hin as (y & Heq & Hy).
  apply in_map_iff. exists y. split; [exact Heq|].
  apply filter_In in Hy. tauto.
Qed.

Lemma deregister_consistent pid st :
  consistent st -> consistent (deregister pid st).
Proof.
  intros [Hreg Hnodup]. unfold deregister. split; simpl.
  - intros tx pid'. rewrite filter_In. simpl.
    destruct (String.eqb_spec pid' pid) as [->|Hne]; simpl.
    + rewrite lookup_delete_eq. split; [intros [_ Habs]|intros Habs]; discriminate.
    + rewrite lookup_delete_ne by congruence. rewrite <- Hreg. tauto.
  - now apply nodup_filter_snd.
Qed.

Lemma step_consistent st a : consistent st -> consistent (step st a).
Proof.
  destruct a; simpl; [apply register_consistent | apply deregister_consistent].
Qed.

Lemma run_consistent actions : consistent (run actions).
Proof.
  unfold run. generalize consistent_empty. generalize empty.
  induction actions as [|a actions IH]; intros st Hst; simpl; [exact Hst|].
  apply IH, step_consistent, Hst.
Qed.

(** C9.  Along any interleaving of requests and terminations no partition
    has two transactions in flight; a request for a partition whose
    transaction is in flight is rejected at once with [OperationInProgress],
    it is not kept anywhere, and the registry and the running transaction
    are as they were. *)
Theorem at_most_one_transaction_per_partition actions pid tx :
  List.NoDup (List.map snd (running (run actions)))
  /\ (forall tx', In (tx, pid) (running (run actions)) ->
                  In (tx', pid) (running (run actions)) -> tx = tx')
  /\ (In (tx, pid) (running (run actions)) ->
      register pid (run actions) = (inl OperationInProgress, run actions)
      /\ run (actions ++ [Request pid]) = run actions
      /\ In (tx, pid) (running (run (actions ++ [Request pid])))).
Proof.
  destruct (run_consistent actions) as [Hreg Hnodup].
  split; [exact Hnodup|]. split.
  - intros tx' H1 H2. apply Hreg in H1, H2. congruence.
  - intros Hin.
    assert (Hrej : register pid (run actions)
                   = (inl OperationInProgress, run actions)).
    { unfold register. apply Hreg in Hin. rewrite Hin. reflexivity. }
    assert (Hsame : run (actions ++ [Request pid]) = run actions).
    { unfold run. rewrite foldl_app. simpl. fold (run actions).
      rewrite Hrej. reflexivity. }
    split; [exact Hrej|]. split; [exact Hsame|]. rewrite Hsame. exact Hin.
Qed.

Lemma at_most_one_transaction_per_partition_witness :
  In (O, "partition-0-2") (running (run [Request "partition-0-2"]))
  /\ register "partition-0-2" (run [Request "partition-0-2"])
     = (inl OperationInProgress, run [Request "partition-0-2"]).
Proof.
  split; [left; reflexivity|].
  apply (at_most_one_transaction_per_partition
           [Request "partition-0-2"] "partition-0-2" O).
  left; reflexivity.
Defined.

End RegistryProperties.

(** * Further properties of the code *)

(** ** [ResizeOperation::execute] *)

Section ExecuteProperties.
Import Snapshot Resize Engine Reading.
Context {World Error Transaction : Type}.
Variable tools : Tools World Error Transaction.

Ltac outcome :=
  match goal with
  | |- context [validate_preconditions tools ?s ?w] =>
      destruct (validate_preconditions tools s w) as [[?|[]] ?] eqn:?
  | |- context [calculate_safe_resize_size tools ?s ?w] =>
      destruct (calculate_safe_resize_size tools s w) as [[?|?] ?] eqn:?
  | |- context [require_backup_confirmation tools ?s ?w] =>
      destruct (require_backup_confirmation tools s w) as [[?|[]] ?] eqn:?
  | |- context [transaction_begin tools ?s ?w] =>
      destruct (transaction_begin tools s w) as [[?|?] ?] eqn:?
  | |- context [resize_filesystem tools ?s ?z ?w] =>
      destruct (resize_filesystem tools s z w) as [[?|[]] ?] eqn:?
  | |- context [resize_partition_table tools ?s ?z ?w] =>
      destruct (resize_partition_table tools s z w) as [[?|[]] ?] eqn:?
  | |- context [verify_integrity tools ?s ?w] =>
      destruct (verify_integrity tools s w) as [[?|[]] ?] eqn:?
  | |- context [transaction_commit tools ?t ?w] =>
      destruct (transaction_commit tools t w) as [[?|[]] ?] eqn:?
  | |- context [transaction_rollback tools ?t ?w] =>
      destruct (transaction_rollback tools t w) as [? ?] eqn:?
  end.

Ltac paths :=
  unfold trace_of, result_of, world_of, run_execute, execute, bind, call,
    emit_progress, map_err_rollback, ret;
  destruct (is_shrinking _) eqn:?; destruct (is_growing _) eqn:?;
  cbn [fst snd app is_ok];
  repeat (outcome; cbn [fst snd app is_ok]).

(** [execute] answers [success] exactly when the commit completed, and then
    every percentage of the direction was emitted, the last event is the
    100% one and the rollback was never invoked. *)
Theorem execute_success_iff_committed self w :
  (result_of tools self w = inr success
   <-> In Committed (phases (trace_of tools self w)))
  /\ (result_of tools self w = inr success ->
      percentages (trace_of tools self w) = reference_percentages self
      /\ last (trace_of tools self w) = Some (Progress 100 "Resize complete")
      /\ rollbacks (trace_of tools self w) = O).
Proof.
  unfold reference_percentages.
  paths; cbn; (split; [split|]); intros H;
    try discriminate H; try reflexivity;
    try (exfalso; intuition discriminate);
    try (repeat split; reflexivity);
    try tauto.
Qed.

(** The rollback runs at most once, and only on a transaction that was
    opened: a failure of the checks, of the size calculation, of the backup
    confirmation or of [Transaction::begin] is returned without it. *)
Theorem rollback_only_on_open_transaction self w :
  (rollbacks (trace_of tools self w) <= 1)%nat
  /\ (In Rollback (trace_of tools self w) ->
      In TransactionOpen (phases (trace_of tools self w))
      /\ ~ In Committed (phases (trace_of tools self w)))
  /\ (~ In TransactionOpen (phases (trace_of tools self w)) ->
      rollbacks (trace_of tools self w) = O
      /\ percentages (trace_of tools self w)
         = firstn (length (percentages (trace_of tools self w))) [5; 10; 15]).
Proof.
  paths; cbn; (split; [lia|split]); intros H;
    try (exfalso; intuition discriminate);
    try (split; [tauto | intros Hc; intuition discriminate]);
    try (split; reflexivity).
Qed.

(** Both resize tools are handed the size that [calculate_safe_resize_size]
    answered, never another one. *)
Theorem resize_tools_get_safe_size self w z :
  In z (resize_sizes (trace_of tools self w)) ->
  fst (calculate_safe_resize_size tools self
         (snd (validate_preconditions tools self w))) = inr z.
Proof.
  paths; cbn; intros H;
    repeat match goal with
           | Hv : validate_preconditions tools _ _ = _ |- _ =>
               rewrite Hv; clear Hv; cbn [fst snd]
           | Hc : calculate_safe_resize_size tools _ _ = _ |- _ =>
               rewrite Hc; clear Hc; cbn [fst snd]
           end;
    try contradiction;
    repeat (destruct H as [H|H]; [subst; try reflexivity|]);
    try contradiction.
Qed.

(** No operation is invoked twice in a run: nothing is retried. *)
Theorem no_phase_is_retried self w :
  List.NoDup (List.map phase_of_call (invoked (trace_of tools self w))).
Proof.
  pose proof (shrinking_not_growing self) as Hexcl.
  revert Hexcl. paths; intros Hexcl; cbn;
    try (specialize (Hexcl eq_refl); discriminate Hexcl);
    repeat (constructor; [cbn; intuition discriminate|]); constructor.
Qed.

(** When a resize phase or the verification fails, what the caller receives
    is what [transaction.rollback()] answered on the transaction that
    [Transaction::begin] returned; the error of the failed tool is dropped. *)
Theorem rollback_answer_replaces_error self w :
  In Rollback (trace_of tools self w) ->
  exists w1 transaction w2 w3,
    transaction_begin tools self w1 = (inr transaction, w2)
    /\ result_of tools self w
       = inl (fst (transaction_rollback tools transaction w3))
    /\ world_of tools self w = snd (transaction_rollback tools transaction w3).
Proof.
  paths; cbn; intros H;
    try (exfalso; intuition discriminate);
    match goal with
    | Hb : transaction_begin tools _ ?w1 = (inr ?t, ?w2),
      Hr : transaction_rollback tools ?t ?w3 = _ |- _ =>
        exists w1, t, w2, w3; rewrite Hr; repeat split; assumption
    end.
Qed.

End ExecuteProperties.

(** ** The platform wrappers *)

Section PlatformProperties.
Import Platform.
Context {World IoError : Type}.
Variable output : Invocation -> World -> (IoError + Output) * World.
Variable unmount_filesystem :
  string -> World -> (Failure (IoError := IoError) + unit) * World.

Ltac os_answers :=
  repeat (match goal with
          | |- context [output ?i ?w] =>
              destruct (output i w) as [[?|[[] ?]] ?]; cbn
          | |- context [unmount_filesystem ?d ?w] =>
              destruct (unmount_filesystem d w) as [[?|[]] ?]; cbn
          end).


Lemma append_last_char_inj c s1 : forall s2,
  s1 +:+ String c EmptyString = s2 +:+ String c EmptyString -> s1 = s2.
Proof.
  induction s1 as [|a s1 IH]; intros [|b s2] Heq; simpl in Heq.
  - reflexivity.
  - injection Heq as _ Heq. destruct s2; discriminate Heq.
  - injection Heq as _ Heq. destruct s1; discriminate Heq.
  - injection Heq as -> Heq. f_equal. now apply IH.
Qed.

(** The size handed to ntfsresize is the request rounded down to whole
    mebibytes: the argument is [m]M exactly for the requests from [m] MiB up
    to, not including, [m + 1] MiB; resize2fs gets whole kibibytes in the same
    way. *)
Theorem size_arguments_round_down (new_size m : N) :
  (megabytes new_size = pretty m +:+ "M"
   <-> (m * 1048576 <= new_size < (m + 1) * 1048576)%N)
  /\ (kilobytes new_size = pretty m +:+ "K"
      <-> (m * 1024 <= new_size < (m + 1) * 1024)%N).
Proof.
  unfold megabytes, kilobytes. rewrite N.Div0.div_div.
  change (1024 * 1024)%N with 1048576%N.
  split; split.
  - intros H. apply append_last_char_inj, (inj pretty) in H. subst m.
    pose proof (N.Div0.mul_div_le new_size 1048576).
    pose proof (N.mul_succ_div_gt new_size 1048576 ltac:(lia)). lia.
  - intros H. f_equal. f_equal. symmetry. apply N.div_unique with
      (r := (new_size - m * 1048576)%N); lia.
  - intros H. apply append_last_char_inj, (inj pretty) in H. subst m.
    pose proof (N.Div0.mul_div_le new_size 1024).
    pose proof (N.mul_succ_div_gt new_size 1024 ltac:(lia)). lia.
  - intros H. f_equal. f_equal. symmetry. apply N.div_unique with
      (r := (new_size - m * 1024)%N); lia.
Qed.

(** [resize_ext4] asks for an unmount exactly when the filesystem is not
    mounted; a mounted filesystem is never unmounted, and when it is not grown
    online the first program run on it, still mounted, is [e2fsck -f -y]. *)
Theorem resize_ext4_unmounts_only_unmounted is_growing device new_size is_mounted w :
  let log :=
    snd (snd (resize_ext4 output unmount_filesystem is_growing device new_size
                is_mounted (w, []))) in
  unmounts log = (if is_mounted then [] else [device])
  /\ (is_mounted = true -> is_growing = false ->
      exists e rest, log = Ran (e2fsck device) e :: rest).
Proof.
  cbn zeta. unfold resize_ext4, unmount, bind, run_command, fail, ret.
  destruct is_growing, is_mounted; cbn [andb negb fst snd app];
    os_answers; (split; [reflexivity|]); intros Hm Hg;
    try discriminate; do 2 eexists; reflexivity.
Qed.

End PlatformProperties.

Section Ext4Properties.
Import Platform.
Context {World IoError : Type}.
Variable output : Invocation -> World -> (IoError + Output) * World.
Variable unmount_filesystem :
  string -> World -> (Failure (IoError := IoError) + unit) * World.

Ltac os_answers :=
  repeat (match goal with
          | |- context [output ?i ?w] =>
              destruct (output i w) as [[?|[[] ?]] ?]; cbn
          end).


End Ext4Properties.

(** ** The disk usage chart *)

Section ChartProperties.
Import Chart.
Variable formatSize : Z -> string.

Lemma insert_desc_perm x l : Permutation (x :: l) (insert_desc x l).
Proof.
  induction l as [|y l IH]; simpl; [reflexivity|].
  destruct (size y <=? size x); [reflexivity|].
  rewrite perm_swap. now constructor.
Qed.

Lemma sort_desc_perm items : Permutation items (sort_desc items).
Proof.
  induction items as [|x items IH]; simpl; [constructor|].
  rewrite <- insert_desc_perm. now constructor.
Qed.

Lemma sort_desc_length items : length (sort_desc items) = length items.
Proof. symmetry. apply Permutation_length, sort_desc_perm. Qed.

Lemma insert_desc_sorted x l :
  Sorted by_size_desc l -> Sorted by_size_desc (insert_desc x l).
Proof.
  induction l as [|y l IH]; intros Hs; simpl; [repeat constructor|].
  destruct (Z.leb_spec (size y) (size x)).
  - constructor; [exact Hs | constructor; assumption].
  - inversion Hs as [|? ? Hs' Hhd]; subst. constructor; [now apply IH|].
    destruct l as [|z l]; simpl.
    + constructor. unfold by_size_desc. lia.
    + destruct (Z.leb_spec (size z) (size x)); constructor;
        unfold by_size_desc; try lia.
      inversion Hhd; assumption.
Qed.

Lemma sort_desc_sorted items : StronglySorted by_size_desc (sort_desc items).
Proof.
  apply Sorted_StronglySorted.
  - intros a b c Hab Hbc. unfold by_size_desc in *. lia.
  - induction items as [|x items IH]; simpl; [constructor|].
    now apply insert_desc_sorted.
Qed.

Lemma total_perm l1 l2 : Permutation l1 l2 -> total l1 = total l2.
Proof.
  induction 1; unfold total in *; simpl; lia.
Qed.

Lemma total_app l1 l2 : total (l1 ++ l2) = total l1 + total l2.
Proof. induction l1 as [|x l1 IH]; simpl; [reflexivity|]. unfold total in *. simpl. lia. Qed.

Lemma chart_data_length items :
  (length (chart_data formatSize items) <= 9)%nat
  /\ (forall l, items = Some l -> (length l <= 8)%nat ->
        length (chart_data formatSize items) = length l).
Proof.
  destruct items as [[|x l]|].
  - split; [simpl; lia | intros l0 [= <-] _; reflexivity].
  - unfold chart_data. cbn zeta.
    set (sorted := sort_desc (x :: l)).
    assert (Hlen : length sorted = S (length l))
      by (unfold sorted; rewrite sort_desc_length; reflexivity).
    destruct (0 <? length (skipn 8 sorted))%nat eqn:Hother.
    + apply Nat.ltb_lt in Hother. rewrite length_skipn in Hother.
      split.
      * rewrite length_app, length_map, length_firstn. cbn [length]. lia.
      * intros l0 [= <-] Hl. simpl in Hl. lia.
    + apply Nat.ltb_ge in Hother. rewrite length_skipn in Hother.
      split.
      * rewrite length_map, length_firstn. lia.
      * intros l0 [= <-] Hl. rewrite length_map, length_firstn. cbn [length] in *. lia.
  - split; [simpl; lia | discriminate].
Qed.

Lemma colors_nodup : List.NoDup COLORS.
Proof.
  unfold COLORS. repeat (constructor; [cbn; intuition discriminate|]).
  constructor.
Qed.

Lemma fills_prefix n :
  (n <= 10)%nat -> List.map fill (seq 0 n) = List.map Some (firstn n COLORS).
Proof.
  intros Hn.
  do 11 (destruct n as [|n]; [reflexivity|]). lia.
Qed.

Lemma in_firstn {A} n (l : list A) x : In x (firstn n l) -> In x l.
Proof.
  revert n. induction l as [|y l IH]; intros [|n] Hin; simpl in *;
    try contradiction.
  destruct Hin as [->|Hin]; [now left | right; eapply IH, Hin].
Qed.

Lemma nodup_firstn {A} n (l : list A) : List.NoDup l -> List.NoDup (firstn n l).
Proof.
  revert n. induction l as [|x l IH]; intros [|n] Hnd; simpl; try constructor.
  - inversion Hnd as [|? ? Hnotin Hnd']; subst.
    intros Hin. apply Hnotin. eapply in_firstn, Hin.
  - inversion Hnd; subst. now apply IH.
Qed.

Lemma nodup_map_some {A} (l : list A) :
  List.NoDup l -> List.NoDup (List.map Some l).
Proof.
  induction 1 as [|x l Hnotin Hnd IH]; simpl; constructor; [|exact IH].
  intros Hin. apply in_map_iff in Hin as (y & [= ->] & Hy). contradiction.
Qed.

(** The chart never has more than nine slices (eight entries and "Others"),
    so every slice gets a colour of its own: the ten colours never wrap. *)
Theorem chart_slices_have_distinct_colours items :
  (length (chart_data formatSize items) <= 9)%nat
  /\ List.NoDup (fills (chart_data formatSize items))
  /\ Forall (fun c => c <> None) (fills (chart_data formatSize items)).
Proof.
  destruct (chart_data_length items) as [Hlen _].
  split; [exact Hlen|]. unfold fills. rewrite fills_prefix by lia.
  split.
  - apply nodup_map_some, nodup_firstn, colors_nodup.
  - apply List.Forall_forall. intros c Hc. apply in_map_iff in Hc as (x & <- & _).
    discriminate.
Qed.

Lemma round_to_number_exact z : Z.abs z <= 2 ^ 53 -> round_to_number z = z.
Proof.
  intros H. unfold round_to_number. cbv zeta.
  now rewrite (proj2 (Z.leb_le _ _) H).
Qed.

Lemma total_nonneg l : Forall (fun item => 0 <= size item) l -> 0 <= total l.
Proof.
  induction 1 as [|x l Hx _ IH]; unfold total in *; simpl; lia.
Qed.

Lemma reduce_exact l : forall acc,
  Forall (fun item => 0 <= size item) l ->
  0 <= acc -> acc + total l <= 2 ^ 53 ->
  fold_left (fun acc item => number_add acc (size item)) l acc = acc + total l.
Proof.
  induction l as [|x l IH]; intros acc Hl Hacc Hsum; simpl.
  - unfold total. simpl. lia.
  - inversion Hl as [|? ? Hx Hl']; subst.
    pose proof (total_nonneg l Hl') as Hnn.
    assert (Htot : total (x :: l) = size x + total l) by reflexivity.
    unfold number_add. rewrite round_to_number_exact by lia.
    rewrite IH by (try assumption; lia). lia.
Qed.

Lemma reduce_sizes_exact l :
  Forall (fun item => 0 <= size item) l -> total l <= 2 ^ 53 ->
  reduce_sizes l = total l.
Proof.
  intros Hl Hsum. unfold reduce_sizes. rewrite reduce_exact by (try assumption; lia).
  lia.
Qed.

Lemma sorted_split_bounds items :
  Forall (fun item => 0 <= size item) items -> total items <= 2 ^ 53 ->
  total items
  = total (firstn 8 (sort_desc items)) + total (skipn 8 (sort_desc items))
  /\ Forall (fun item => 0 <= size item) (skipn 8 (sort_desc items))
  /\ total (skipn 8 (sort_desc items)) <= 2 ^ 53.
Proof.
  intros Hnn Hsum.
  assert (Htot : total items
                 = total (firstn 8 (sort_desc items))
                   + total (skipn 8 (sort_desc items))).
  { rewrite <- total_app, firstn_skipn. apply total_perm, sort_desc_perm. }
  assert (Hall : Forall (fun item => 0 <= size item) (sort_desc items)).
  { eapply Permutation_Forall; [apply sort_desc_perm | exact Hnn]. }
  rewrite <- (firstn_skipn 8 (sort_desc items)) in Hall.
  apply Forall_app in Hall as [Htop Hothers].
  split; [exact Htot|]. split; [exact Hothers|].
  pose proof (total_nonneg _ Htop). lia.
Qed.

(** For sizes that are whole, not negative and sum to at most 2^53 (so that
    the additions of the code are exact), the slices add up to the sizes of
    all the items: what is not shown by name is in "Others", nothing is
    dropped and nothing counted twice. *)
Theorem chart_values_add_up_to_total items :
  Forall (fun item => 0 <= size item) items ->
  total items <= 2 ^ 53 ->
  fold_right (fun d acc => value d + acc) 0 (chart_data formatSize (Some items))
  = total items.
Proof.
  intros Hnn Hsum.
  destruct items as [|x l]; [reflexivity|].
  destruct (sorted_split_bounds (x :: l) Hnn Hsum) as (Htot & Hothers & Hle).
  unfold chart_data.
  set (sorted := sort_desc (x :: l)) in *.
  assert (Hmap : forall l0 rest,
    fold_right (fun d acc => value d + acc) 0 (List.map (datum_of formatSize) l0 ++ rest)
    = total l0 + fold_right (fun d acc => value d + acc) 0 rest).
  { induction l0 as [|y l0 IH]; intros rest; simpl; [unfold total; simpl; lia|].
    rewrite IH. unfold total. simpl. lia. }
  cbn zeta. rewrite Htot.
  destruct (0 <? length (skipn 8 sorted))%nat eqn:Hother.
  - rewrite Hmap. cbn [fold_right value].
    rewrite reduce_sizes_exact by assumption. lia.
  - rewrite <- (app_nil_r (List.map _ _)), Hmap.
    apply Nat.ltb_ge in Hother.
    assert (Hnil : skipn 8 sorted = [])
      by (destruct (skipn 8 sorted); [reflexivity | simpl in Hother; lia]).
    rewrite Hnil. unfold total. simpl. lia.
Qed.

(** The named slices are the eight largest items, largest first; "Others"
    is there exactly when there are more than eight items and gathers items
    no larger than any named one; up to eight items are all shown by name.
    The value of "Others" is the sum of its items as the code adds them,
    which is their exact sum when the sizes are not negative and sum to at
    most 2^53. *)
Theorem chart_names_the_largest items :
  exists top others,
    Permutation items (top ++ others)
    /\ (length top = Nat.min 8 (length items))
    /\ StronglySorted by_size_desc top
    /\ (forall t o, In t top -> In o others -> size o <= size t)
    /\ firstn (length top) (chart_data formatSize (Some items))
       = List.map (datum_of formatSize) top
    /\ List.map datum_name (skipn (length top) (chart_data formatSize (Some items)))
       = (if (8 <? length items)%nat then ["Others"] else [])
    /\ List.map value (skipn (length top) (chart_data formatSize (Some items)))
       = (if (8 <? length items)%nat then [reduce_sizes others] else [])
    /\ (Forall (fun item => 0 <= size item) items -> total items <= 2 ^ 53 ->
        reduce_sizes others = total others).
Proof.
  destruct items as [|x l].
  - exists [], []. simpl. repeat split; try constructor; try contradiction.
  - set (sorted := sort_desc (x :: l)).
    pose proof (sort_desc_sorted (x :: l)) as Hsorted. fold sorted in Hsorted.
    pose proof (sort_desc_length (x :: l)) as Hlen. fold sorted in Hlen.
    exists (firstn 8 sorted), (skipn 8 sorted).
    assert (Htoplen : length (firstn 8 sorted) = Nat.min 8 (length (x :: l)))
      by (rewrite length_firstn; lia).
    split; [rewrite firstn_skipn; apply sort_desc_perm|].
    split; [exact Htoplen|].
    rewrite <- (firstn_skipn 8 sorted) in Hsorted.
    split; [|split; [|split; [|split; [|split]]]].
    + clear -Hsorted. induction (firstn 8 sorted) as [|a t IH];
        [constructor|].
      simpl in Hsorted. inversion Hsorted as [|? ? Hs Hall]; subst.
      constructor; [now apply IH|].
      apply List.Forall_forall. intros b Hb.
      eapply (proj1 (List.Forall_forall _ _) Hall). apply in_or_app. now left.
    + clear -Hsorted. induction (firstn 8 sorted) as [|a t IH];
        intros t0 o Ht Ho; [contradiction|].
      simpl in Hsorted. inversion Hsorted as [|? ? Hs Hall]; subst.
      destruct Ht as [<-|Ht].
      * eapply (proj1 (List.Forall_forall _ _) Hall). apply in_or_app. now right.
      * now apply IH.
    + unfold chart_data. cbv beta iota zeta. fold sorted.
      replace (length (firstn 8 sorted))
        with (length (List.map (datum_of formatSize) (firstn 8 sorted)))
        by apply length_map.
      destruct (0 <? length (skipn 8 sorted))%nat.
      * now rewrite firstn_app, Nat.sub_diag, firstn_all, app_nil_r.
      * now rewrite firstn_all.
    + unfold chart_data. cbv beta iota zeta. fold sorted.
      replace (length (firstn 8 sorted))
        with (length (List.map (datum_of formatSize) (firstn 8 sorted)))
        by apply length_map.
      assert (Hcases : (0 <? length (skipn 8 sorted))%nat
                       = (8 <? length (x :: l))%nat).
      { rewrite length_skipn, Hlen.
        destruct (Nat.ltb_spec 8 (length (x :: l))),
          (Nat.ltb_spec 0 (length (x :: l) - 8)); try reflexivity; lia. }
      rewrite Hcases.
      destruct (8 <? length (x :: l))%nat.
      * now rewrite skipn_app, Nat.sub_diag, skipn_all.
      * now rewrite skipn_all.
    + unfold chart_data. cbv beta iota zeta. fold sorted.
      replace (length (firstn 8 sorted))
        with (length (List.map (datum_of formatSize) (firstn 8 sorted)))
        by apply length_map.
      assert (Hcases : (0 <? length (skipn 8 sorted))%nat
                       = (8 <? length (x :: l))%nat).
      { rewrite length_skipn, Hlen.
        destruct (Nat.ltb_spec 8 (length (x :: l))),
          (Nat.ltb_spec 0 (length (x :: l) - 8)); try reflexivity; lia. }
      rewrite Hcases.
      destruct (8 <? length (x :: l))%nat.
      * now rewrite skipn_app, Nat.sub_diag, skipn_all.
      * now rewrite skipn_all.
    + intros Hnn Hsum.
      destruct (sorted_split_bounds (x :: l) Hnn Hsum) as (_ & Hothers & Hle).
      now apply reduce_sizes_exact.
Qed.

End ChartProperties.

(** Above 2^53 the additions round: with eight files of 2^54 bytes, one of
    2^53 bytes and one of one byte, "Others" shows 2^53 bytes for items of
    2^53 + 1 bytes. *)
Example others_rounds_above_2_53 :
  List.map Chart.value (skipn 8 (Chart.chart_data (fun _ => "") (Some Chart.huge_files)))
  = [9007199254740992]
  /\ Chart.total (skipn 8 (Chart.sort_desc Chart.huge_files)) = 9007199254740993.
Proof. split; vm_compute; reflexivity. Qed.

Lemma chart_values_add_up_to_total_witness :
  Forall (fun item => 0 <= Chart.size item) Chart.ten_files
  /\ Chart.total Chart.ten_files <= 2 ^ 53
  /\ fold_right (fun d acc => Chart.value d + acc) 0
       (Chart.chart_data (fun _ => "") (Some Chart.ten_files)) = 55.
Proof.
  assert (Hnn : Forall (fun item => 0 <= Chart.size item) Chart.ten_files)
    by (repeat constructor; vm_compute; discriminate).
  assert (Hsum : Chart.total Chart.ten_files <= 2 ^ 53)
    by (vm_compute; discriminate).
  split; [exact Hnn|]. split; [exact Hsum|].
  rewrite (chart_values_add_up_to_total (fun _ => "") Chart.ten_files Hnn Hsum).
  vm_compute. reflexivity.
Defined.

Lemma chart_names_the_largest_witness :
  Forall (fun item => 0 <= Chart.size item) Chart.ten_files
  /\ Chart.total Chart.ten_files <= 2 ^ 53
  /\ exists top others,
       Permutation Chart.ten_files (top ++ others)
       /\ length top = 8%nat
       /\ Chart.reduce_sizes others = Chart.total others.
Proof.
  assert (Hnn : Forall (fun item => 0 <= Chart.size item) Chart.ten_files)
    by (repeat constructor; vm_compute; discriminate).
  assert (Hsum : Chart.total Chart.ten_files <= 2 ^ 53)
    by (vm_compute; discriminate).
  split; [exact Hnn|]. split; [exact Hsum|].
  destruct (chart_names_the_largest (fun _ => "") Chart.ten_files)
    as (top & others & Hperm & Hlen & _ & _ & _ & _ & _ & Hexact).
  exists top, others. split; [exact Hperm|]. split; [exact Hlen|].
  exact (Hexact Hnn Hsum).
Defined.

(** ** The file explorer *)

Section ExplorerProperties.
Import Chart Explorer.

Lemma split_on_not_nil sep s : split_on sep s <> [].
Proof.
  induction s as [|a s IH]; simpl; [discriminate|].
  destruct (Ascii.eqb a sep); [discriminate|].
  destruct (split_on sep s); [contradiction | discriminate].
Qed.








Lemma removelast_length {A} (l : list A) :
  length (removelast l) = (length l - 1)%nat.
Proof.
  induction l as [|x l IH]; [reflexivity|].
  destruct l as [|y l]; [reflexivity|].
  change (removelast (x :: y :: l)) with (x :: removelast (y :: l)).
  simpl length in *. lia.
Qed.




(** *** History *)

Lemma fetchData_history p f c :
  history (state (fetchData p f c)) = history (state c)
  /\ historyIndex (state (fetchData p f c)) = historyIndex (state c).
Proof. split; reflexivity. Qed.

Lemma step_index_valid c ev :
  (historyIndex (state c) < length (history (state c)))%nat ->
  (historyIndex (state (step c ev)) < length (history (state (step c ev))))%nat.
Proof.
  intros Hinv.
  assert (Hnav : forall p,
    (historyIndex (state (handleNavigate p c))
     < length (history (state (handleNavigate p c))))%nat).
  { intros p. unfold handleNavigate. destruct (String.eqb p _); [exact Hinv|].
    cbn. rewrite length_app. simpl. lia. }
  destruct ev; cbn [step]; try exact Hinv; try apply Hnav.
  - simpl. lia.
  - destruct (back_disabled c); [exact Hinv|]. unfold handleBack.
    destruct (Nat.ltb_spec 0 (historyIndex (state c))); [|exact Hinv]. cbn. lia.
  - destruct (forward_disabled c); [exact Hinv|]. unfold handleForward.
    destruct (Nat.ltb_spec (historyIndex (state c)) (length (history (state c)) - 1));
      [|exact Hinv]. cbn. lia.
  - unfold handleUp. destruct (up_target _); [apply Hnav | exact Hinv].
  - destruct (is_dir item); [apply Hnav | exact Hinv].
  - unfold settle. destruct (nth_error _ _); [|exact Hinv].
    destruct o; exact Hinv.
Qed.

Lemma run_index_valid evs :
  (historyIndex (state (run evs)) < length (history (state (run evs))))%nat.
Proof.
  unfold run.
  assert (Hinit : (historyIndex (state initial)
                   < length (history (state initial)))%nat) by (simpl; lia).
  revert Hinit. generalize initial.
  induction evs as [|ev evs IH]; intros c Hc; simpl; [exact Hc|].
  apply IH, step_index_valid, Hc.
Qed.

(** Whatever the user does and however the scans settle, [historyIndex] is
    an index of [history]: Back and Forward never read past its ends. *)
Theorem history_index_always_valid evs :
  (historyIndex (state (run evs)) < length (history (state (run evs))))%nat
  /\ In (history_at (state (run evs)) (historyIndex (state (run evs))))
        (history (state (run evs))).
Proof.
  split; [apply run_index_valid|].
  apply nth_In, run_index_valid.
Qed.

(** After a Back that was possible, Forward is possible and brings the
    history and the index back to what they were; the two scans asked for
    are those of the entry before and of the entry left. *)
Theorem forward_undoes_back evs :
  let c := run evs in
  back_disabled c = false ->
  let c' := step (step c ClickBack) ClickForward in
  forward_disabled (step c ClickBack) = false
  /\ history (state c') = history (state c)
  /\ historyIndex (state c') = historyIndex (state c)
  /\ pending c'
     = pending c
       ++ [ {| target := history_at (state c) (historyIndex (state c) - 1);
               command := scan_dir |};
            {| target := history_at (state c) (historyIndex (state c));
               command := scan_dir |} ].
Proof.
  intros c Hback c'.
  pose proof (run_index_valid evs) as Hvalid. fold c in Hvalid.
  unfold c'. clear c'. cbn [step]. rewrite Hback.
  unfold back_disabled in Hback. apply Nat.leb_gt in Hback.
  unfold handleBack. rewrite (proj2 (Nat.ltb_lt _ _) Hback).
  unfold forward_disabled, handleForward, history_at.
  cbn [fetchData set_state state history historyIndex pending].
  rewrite (proj2 (Nat.leb_gt _ _)) by lia.
  rewrite (proj2 (Nat.ltb_lt _ _)) by lia.
  cbn [fetchData set_state state history historyIndex pending inputPath].
  replace (historyIndex (state c) - 1 + 1)%nat with (historyIndex (state c)) by lia.
  rewrite <- List.app_assoc. repeat split.
Qed.

Lemma forward_undoes_back_witness :
  back_disabled (run [Mount; TypePath "/home"; Go]) = false
  /\ historyIndex (state (step (step (run [Mount; TypePath "/home"; Go]) ClickBack)
                            ClickForward))
     = historyIndex (state (run [Mount; TypePath "/home"; Go])).
Proof.
  split; [reflexivity|].
  apply (forward_undoes_back [Mount; TypePath "/home"; Go]). reflexivity.
Defined.

(** A navigation to a new path drops the entries after the current one and
    appends the path: Forward is disabled afterwards and Back is enabled;
    a navigation to the path already shown does nothing at all. *)
Theorem navigation_truncates_forward_history evs p :
  let c := run evs in
  (p <> path (state c) ->
   history (state (handleNavigate p c))
   = firstn (historyIndex (state c) + 1) (history (state c)) ++ [p]
   /\ history_at (state (handleNavigate p c))
        (historyIndex (state (handleNavigate p c))) = p
   /\ forward_disabled (handleNavigate p c) = true
   /\ back_disabled (handleNavigate p c) = false)
  /\ (p = path (state c) -> handleNavigate p c = c).
Proof.
  intros c.
  pose proof (run_index_valid evs) as Hvalid. fold c in Hvalid.
  unfold handleNavigate. split.
  - intros Hne. apply String.eqb_neq in Hne. rewrite Hne.
    unfold forward_disabled, back_disabled, history_at. cbn.
    rewrite length_app, length_firstn. cbn [length].
    replace (Nat.min (historyIndex (state c) + 1) (length (history (state c))))
      with (historyIndex (state c) + 1)%nat by lia.
    split; [reflexivity|]. split; [|split].
    + rewrite app_nth2 by (rewrite length_firstn; lia).
      rewrite length_firstn.
      replace (_ - _)%nat with O by lia. reflexivity.
    + apply Nat.leb_le. lia.
    + apply Nat.leb_gt. lia.
  - intros ->. now rewrite String.eqb_refl.
Qed.

Lemma navigation_truncates_forward_history_witness :
  "/home" <> path (state (run [Mount]))
  /\ history (state (handleNavigate "/home" (run [Mount]))) = ["/"; "/home"].
Proof.
  split; [discriminate|].
  apply (navigation_truncates_forward_history [Mount] "/home"). discriminate.
Defined.

Lemma settle_nothing_pending i o c : pending c = [] -> settle i o c = c.
Proof. intros H. unfold settle. rewrite H. now destruct i. Qed.

Lemma act_and_load_in_step c ev node :
  (historyIndex (state c) < length (history (state c)))%nat ->
  in_step c ->
  in_step (act_and_load c ev node)
  /\ (historyIndex (state (act_and_load c ev node))
      < length (history (state (act_and_load c ev node))))%nat.
Proof.
  intros Hvalid Hstep.
  assert (Hvalid' : (historyIndex (state (act_and_load c ev node))
      < length (history (state (act_and_load c ev node))))%nat).
  { unfold act_and_load. apply (step_index_valid _ (Settle 0 (Resolved node))).
    now apply step_index_valid. }
  split; [|exact Hvalid'].
  destruct Hstep as [Hpend Hpath].
  assert (Hsame : in_step (settle 0 (Resolved node) c)).
  { rewrite settle_nothing_pending by exact Hpend. split; assumption. }
  assert (Hnav : forall p, in_step (settle 0 (Resolved node) (handleNavigate p c))).
  { intros p. unfold handleNavigate. destruct (String.eqb p _); [exact Hsame|].
    unfold in_step, settle.
    cbn [fetchData set_state state history historyIndex pending path].
    rewrite Hpend.
    cbn [app nth_error remove_nth state history historyIndex pending path target].
    split; [reflexivity|].
    rewrite length_app, length_firstn. cbn [length].
    replace (Nat.min (historyIndex (state c) + 1) (length (history (state c)))
             + 1 - 1)%nat
      with (length (firstn (historyIndex (state c) + 1) (history (state c)))
            + 0)%nat by (rewrite length_firstn; lia).
    rewrite nth_error_app2 by lia.
    replace (_ - _)%nat with O by lia. reflexivity. }
  unfold act_and_load.
  destruct ev; cbn [step]; try exact Hsame; try apply Hnav.
  - unfold mount, in_step, settle.
    cbn [fetchData set_state state history historyIndex pending path].
    rewrite Hpend. cbn. split; reflexivity.
  - destruct (back_disabled c); [exact Hsame|].
    unfold handleBack. destruct (Nat.ltb_spec 0 (historyIndex (state c)));
      [|exact Hsame].
    unfold in_step, settle.
    cbn [fetchData set_state state history historyIndex pending path].
    rewrite Hpend.
    cbn [app nth_error remove_nth state history historyIndex pending path target].
    split; [reflexivity|]. unfold history_at.
    apply nth_error_nth'. lia.
  - destruct (forward_disabled c); [exact Hsame|].
    unfold handleForward.
    destruct (Nat.ltb_spec (historyIndex (state c)) (length (history (state c)) - 1));
      [|exact Hsame].
    unfold in_step, settle.
    cbn [fetchData set_state state history historyIndex pending path].
    rewrite Hpend.
    cbn [app nth_error remove_nth state history historyIndex pending path target].
    split; [reflexivity|]. unfold history_at.
    apply nth_error_nth'. lia.
  - unfold handleUp. destruct (up_target _); [apply Hnav | exact Hsame].
  - unfold in_step, settle.
    cbn [fetchData set_state state history historyIndex pending path].
    rewrite Hpend.
    cbn [app nth_error remove_nth state history historyIndex pending path target].
    split; [reflexivity | exact Hpath].
  - unfold in_step, settle. cbn [state pending]. rewrite Hpend.
    split; [reflexivity | exact Hpath].
  - destruct (is_dir item); [apply Hnav | exact Hsame].
  - rewrite (settle_nothing_pending i o c Hpend). exact Hsame.
Qed.

(** As long as every scan succeeds before the next event, the path shown is
    the current entry of the history and no scan is left in flight. *)
Theorem path_follows_history_while_scans_succeed evs :
  in_step (browse evs)
  /\ history_at (state (browse evs)) (historyIndex (state (browse evs)))
     = path (state (browse evs)).
Proof.
  assert (H : in_step (browse evs)
              /\ (historyIndex (state (browse evs))
                  < length (history (state (browse evs))))%nat).
  { unfold browse.
    assert (Hinit : in_step initial
                    /\ (historyIndex (state initial)
                        < length (history (state initial)))%nat)
      by (repeat split; simpl; lia).
    revert Hinit. generalize initial.
    induction evs as [|[ev node] evs IH]; intros c Hc; simpl; [exact Hc|].
    apply IH. apply act_and_load_in_step; tauto. }
  destruct H as [Hstep Hvalid]. split; [exact Hstep|].
  destruct Hstep as [_ Hpath]. unfold history_at.
  now apply nth_error_nth.
Qed.

(** A scan that fails leaves the path behind the history. *)
Example path_behind_history_after_failed_scan :
  let c := run [Mount; Settle 0 (Resolved (file "/" 0)); TypePath "/home"; Go;
                Settle 0 (Rejected "denied")] in
  path (state c) = "/"
  /\ history_at (state c) (historyIndex (state c)) = "/home"
  /\ pending c = [].
Proof. vm_compute. repeat split; reflexivity. Qed.

End ExplorerProperties.

(** ** The tool calling utilities *)

Section ToolCallingProperties.
Import Dialogs ToolCalling.

Lemma starts_with_app needle rest : starts_with needle (needle ++ rest) = true.
Proof.
  induction needle as [|a needle IH]; simpl; [reflexivity|].
  unfold unit_eqb. now rewrite N.eqb_refl.
Qed.

Lemma includes_here needle rest : includes needle (needle ++ rest) = true.
Proof.
  destruct needle as [|a needle]; [destruct rest; reflexivity|].
  change (includes (a :: needle) ((a :: needle) ++ rest))
    with (starts_with (a :: needle) ((a :: needle) ++ rest)
          || includes (a :: needle) (needle ++ rest)).
  now rewrite starts_with_app.
Qed.

Lemma includes_later needle pre hay :
  includes needle hay = true -> includes needle (pre ++ hay) = true.
Proof.
  intros H. induction pre as [|c pre IH]; [exact H|].
  change (includes needle ((c :: pre) ++ hay))
    with (starts_with needle (c :: pre ++ hay) || includes needle (pre ++ hay)).
  rewrite IH. apply orb_true_r.
Qed.

(** What [formatToolResult] produces is always recognised by
    [hasToolResult], whatever the tool name, the result text and the error
    flag. *)
Theorem formatted_result_is_recognised toolName result isError :
  hasToolResult (formatToolResult toolName result isError) = true.
Proof.
  unfold hasToolResult, formatToolResult. apply andb_true_iff.
  destruct isError; split.
  - change (units "<tool_result name=") with (units "<tool_result" ++ units " name=").
    rewrite <- !List.app_assoc. apply includes_here.
  - rewrite !List.app_assoc. apply includes_later.
    rewrite <- (app_nil_r (units "</tool_result>")). apply includes_here.
  - change (units "<tool_result name=") with (units "<tool_result" ++ units " name=").
    rewrite <- !List.app_assoc. apply includes_here.
  - rewrite !List.app_assoc. apply includes_later.
    rewrite <- (app_nil_r (units "</tool_result>")). apply includes_here.
Qed.

(** *** Matching *)

Lemma starts_with_split needle : forall hay,
  starts_with needle hay = true -> hay = needle ++ skipn (length needle) hay.
Proof.
  induction needle as [|a needle IH]; intros hay H; [reflexivity|].
  destruct hay as [|b hay]; [discriminate|]. simpl in H.
  apply andb_true_iff in H as [Hab H]. apply N.eqb_eq in Hab. subst b.
  simpl. f_equal. now apply IH.
Qed.

Lemma find_split needle : forall hay before rest,
  find needle hay = Some (before, rest) -> hay = before ++ needle ++ rest.
Proof.
  induction hay as [|c hay IH]; intros before rest H.
  - simpl in H. destruct (starts_with needle []) eqn:Hs; [|discriminate].
    injection H as <- <-. now apply starts_with_split in Hs.
  - simpl in H. destruct (starts_with needle (c :: hay)) eqn:Hs.
    + injection H as <- <-. now apply starts_with_split in Hs.
    + destruct (find needle hay) as [[b r]|] eqn:Hf; [|discriminate].
      injection H as <- <-. simpl. f_equal. now apply IH.
Qed.

Lemma find_includes needle : forall hay,
  includes needle hay = false <-> find needle hay = None.
Proof.
  induction hay as [|c hay IH]; simpl.
  - destruct (starts_with needle []); simpl; split; congruence.
  - destruct (starts_with needle (c :: hay)); simpl; [split; congruence|].
    rewrite IH. destruct (find needle hay) as [[b r]|]; split; congruence.
Qed.

Lemma next_match_split s before body rest :
  next_match s = Some (before, body, rest) ->
  s = before ++ open_tag ++ body ++ close_tag ++ rest.
Proof.
  unfold next_match. intros H.
  destruct (find open_tag s) as [[b a]|] eqn:Ho; [|discriminate].
  destruct (find close_tag a) as [[bd r]|] eqn:Hc; [|discriminate].
  injection H as <- <- <-.
  apply find_split in Ho, Hc. now rewrite Ho, Hc.
Qed.

Lemma next_match_shorter s before body rest :
  next_match s = Some (before, body, rest) -> (length rest < length s)%nat.
Proof.
  intros H. apply next_match_split in H. rewrite H.
  rewrite !length_app. simpl. lia.
Qed.

Lemma next_match_needs_both_tags s :
  detectToolCall s = false -> next_match s = None.
Proof.
  unfold detectToolCall, next_match. intros H.
  destruct (find open_tag s) as [[b a]|] eqn:Ho; [|reflexivity].
  destruct (find close_tag a) as [[bd r]|] eqn:Hc; [|reflexivity].
  exfalso. apply find_split in Ho as Hs.
  assert (H1 : includes open_tag s = true).
  { destruct (includes open_tag s) eqn:Hi; [reflexivity|].
    apply find_includes in Hi. congruence. }
  assert (H2 : includes close_tag s = true).
  { rewrite Hs, List.app_assoc. apply includes_later.
    destruct (includes close_tag a) eqn:Hi; [reflexivity|].
    apply find_includes in Hi. congruence. }
  rewrite H1, H2 in H. discriminate.
Qed.

(** The fuel of the two loops is enough: more of it changes nothing. *)
Lemma bodies_upto_enough f1 : forall f2 s,
  (length s <= f1)%nat -> (length s <= f2)%nat ->
  bodies_upto f1 s = bodies_upto f2 s.
Proof.
  induction f1 as [|f1 IH]; intros f2 s H1 H2.
  - destruct s; [|simpl in H1; lia]. destruct f2; reflexivity.
  - destruct f2 as [|f2].
    + destruct s; [reflexivity | simpl in H2; lia].
    + simpl. destruct (next_match s) as [[[b body] rest]|] eqn:Hm; [|reflexivity].
      apply next_match_shorter in Hm. f_equal. apply IH; lia.
Qed.

Lemma strip_upto_enough f1 : forall f2 s,
  (length s <= f1)%nat -> (length s <= f2)%nat ->
  strip_upto f1 s = strip_upto f2 s.
Proof.
  induction f1 as [|f1 IH]; intros f2 s H1 H2.
  - destruct s; [|simpl in H1; lia]. destruct f2; reflexivity.
  - destruct f2 as [|f2].
    + destruct s; [reflexivity | simpl in H2; lia].
    + simpl. destruct (next_match s) as [[[b body] rest]|] eqn:Hm; [|reflexivity].
      apply next_match_shorter in Hm. f_equal. apply IH; lia.
Qed.

Lemma bodies_unfold s :
  bodies s = match next_match s with
             | None => []
             | Some (_, body, rest) => body :: bodies rest
             end.
Proof.
  unfold bodies. destruct s as [|c s].
  - reflexivity.
  - cbn [length bodies_upto].
    destruct (next_match (c :: s)) as [[[b body] rest]|] eqn:Hm; [|reflexivity].
    apply next_match_shorter in Hm. simpl in Hm. f_equal.
    apply bodies_upto_enough; lia.
Qed.

Lemma strip_unfold s :
  strip_upto (length s) s
  = match next_match s with
    | None => s
    | Some (before, _, rest) => before ++ strip_upto (length rest) rest
    end.
Proof.
  destruct s as [|c s].
  - reflexivity.
  - cbn [length strip_upto].
    destruct (next_match (c :: s)) as [[[b body] rest]|] eqn:Hm; [|reflexivity].
    apply next_match_shorter in Hm. simpl in Hm. f_equal.
    apply strip_upto_enough; lia.
Qed.

(** *** One tool call in a text without other angle brackets *)

Lemma find_unfold needle hay :
  find needle hay
  = if starts_with needle hay then Some ([], skipn (length needle) hay)
    else match hay with
         | [] => None
         | c :: hay' =>
             match find needle hay' with
             | Some (before, rest) => Some (c :: before, rest)
             | None => None
             end
         end.
Proof. destruct hay; reflexivity. Qed.

Lemma find_first a needle pre rest :
  ~ In a pre ->
  find (a :: needle) (pre ++ (a :: needle) ++ rest) = Some (pre, rest).
Proof.
  induction pre as [|c pre IH]; intros Hnot.
  - rewrite app_nil_l, find_unfold, starts_with_app, skipn_app, Nat.sub_diag,
      skipn_all. reflexivity.
  - rewrite find_unfold.
    change ((c :: pre) ++ (a :: needle) ++ rest)
      with (c :: pre ++ (a :: needle) ++ rest).
    cbn [starts_with].
    assert (Hac : unit_eqb a c = false).
    { apply N.eqb_neq. intros ->. apply Hnot. now left. }
    rewrite Hac. cbn [andb]. rewrite IH; [reflexivity|].
    intros Hin. apply Hnot. now right.
Qed.

Lemma find_absent a needle s : ~ In a s -> find (a :: needle) s = None.
Proof.
  induction s as [|c s IH]; intros Hnot; [reflexivity|].
  cbn [find starts_with].
  assert (Hac : unit_eqb a c = false).
  { apply N.eqb_neq. intros ->. apply Hnot. now left. }
  rewrite Hac. cbn [andb]. rewrite IH; [reflexivity|].
  intros Hin. apply Hnot. now right.
Qed.

(** In a text whose only angle brackets are those of one pair of tags, the
    pair is detected, its body is the one thing captured, and what is
    displayed is the text before and after it, trimmed. *)
Theorem single_tool_call_is_cut_out pre body post :
  ~ In 60%N pre -> ~ In 60%N body -> ~ In 60%N post ->
  detectToolCall (pre ++ open_tag ++ body ++ close_tag ++ post) = true
  /\ bodies (pre ++ open_tag ++ body ++ close_tag ++ post) = [body]
  /\ removeToolCallTags (pre ++ open_tag ++ body ++ close_tag ++ post)
     = trim (pre ++ post).
Proof.
  intros Hpre Hbody Hpost.
  assert (Hm : next_match (pre ++ open_tag ++ body ++ close_tag ++ post)
               = Some (pre, body, post)).
  { unfold next_match.
    change open_tag with (60%N :: units "tool_call>").
    rewrite (find_first 60 (units "tool_call>") pre _ Hpre).
    change close_tag with (60%N :: units "/tool_call>").
    now rewrite (find_first 60 (units "/tool_call>") body _ Hbody). }
  assert (Hend : next_match post = None).
  { unfold next_match. change open_tag with (60%N :: units "tool_call>").
    now rewrite find_absent. }
  split; [|split].
  - unfold detectToolCall. apply andb_true_iff. split.
    + apply includes_later, includes_here.
    + rewrite (List.app_assoc pre), (List.app_assoc (pre ++ open_tag)).
      apply includes_later, includes_here.
  - rewrite bodies_unfold, Hm, bodies_unfold, Hend. reflexivity.
  - unfold removeToolCallTags. rewrite strip_unfold, Hm, strip_unfold, Hend.
    reflexivity.
Qed.

Lemma single_tool_call_is_cut_out_witness :
  removeToolCallTags (units "Scanning. " ++ open_tag ++ units "{}" ++ close_tag
                      ++ units " Done.")
  = units "Scanning.  Done.".
Proof.
  refine (eq_trans (proj2 (proj2 (single_tool_call_is_cut_out
            (units "Scanning. ") (units "{}") (units " Done.") _ _ _))) _).
  - vm_compute. intuition discriminate.
  - vm_compute. intuition discriminate.
  - vm_compute. intuition discriminate.
  - vm_compute. reflexivity.
Defined.

Section ExtractProperties.
Context {Number : Type}.
Variable number_truthy : Number -> bool.
Variable JSON_parse : jsstring -> option (Json (Number := Number)).
Variable Date_now : nat -> N.

(** [detectToolCall] is necessary for anything to be found: a text it
    rejects yields no tool call and is displayed as it is, trimmed.  It is
    not sufficient: a closing tag followed by an opening one is detected and
    yields nothing. *)
Theorem nothing_found_without_both_tags content :
  (detectToolCall content = false ->
   extractToolCalls number_truthy JSON_parse Date_now content = []
   /\ removeToolCallTags content = trim content)
  /\ (includes close_tag content = false ->
      detectToolCall (close_tag ++ open_tag ++ content) = true
      /\ extractToolCalls number_truthy JSON_parse Date_now
           (close_tag ++ open_tag ++ content) = []
      /\ removeToolCallTags (close_tag ++ open_tag ++ content)
         = trim (close_tag ++ open_tag ++ content)).
Proof.
  split.
  - intros H. apply next_match_needs_both_tags in H.
    unfold extractToolCalls, removeToolCallTags.
    rewrite bodies_unfold, strip_unfold, H. split; reflexivity.
  - intros H.
    assert (Hm : next_match (close_tag ++ open_tag ++ content) = None).
    { unfold next_match.
      assert (Hf : find open_tag (close_tag ++ open_tag ++ content)
                   = Some (close_tag, content)).
      { unfold close_tag, open_tag. vm_compute units.
        repeat (rewrite (lock find) at 1; simpl; unfold unit_eqb; simpl;
                rewrite <- (lock find)).
        reflexivity. }
      rewrite Hf. apply find_includes in H. now rewrite H. }
    split; [|split].
    + unfold detectToolCall. apply andb_true_iff. split.
      * apply includes_later, includes_here.
      * apply includes_here.
    + unfold extractToolCalls. now rewrite bodies_unfold, Hm.
    + unfold removeToolCallTags. now rewrite strip_unfold, Hm.
Qed.

(** *** What is extracted *)




(** *** Generated ids *)

Lemma pretty_N_go_digits x : forall s,
  (forall c, c ∈ list_ascii_of_string s -> (48 <= N_of_ascii c <= 57)%N) ->
  forall c, c ∈ list_ascii_of_string (pretty_N_go x s) ->
            (48 <= N_of_ascii c <= 57)%N.
Proof.
  induction (N.lt_wf_0 x) as [x _ IH]; intros s Hs.
  destruct (decide (x = 0%N)) as [->|Hx].
  - now rewrite pretty_N_go_0.
  - rewrite pretty_N_go_step by lia. apply IH.
    + apply N.div_lt; lia.
    + intros c Hc. cbn [list_ascii_of_string] in Hc.
      apply elem_of_cons in Hc as [->|Hc]; [|now apply Hs].
      unfold pretty_N_char. repeat case_match; vm_compute; split; discriminate.
Qed.

Lemma decimal_digits n c : In c (decimal n) -> (48 <= c <= 57)%N.
Proof.
  unfold decimal, units. intros Hin.
  apply in_map_iff in Hin as (a & <- & Ha). apply list_elem_of_In in Ha.
  revert a Ha. unfold pretty, pretty_N. destruct (decide (n = 0%N)).
  - intros a Ha. cbn in Ha.
    apply elem_of_cons in Ha as [->|Ha]; [|now apply elem_of_nil in Ha].
    vm_compute. split; discriminate.
  - apply pretty_N_go_digits. intros c0 Hc0. cbn in Hc0.
    now apply elem_of_nil in Hc0.
Qed.

Lemma units_inj s1 s2 : units s1 = units s2 -> s1 = s2.
Proof.
  unfold units. intros H.
  rewrite <- (string_of_list_ascii_of_string s1),
          <- (string_of_list_ascii_of_string s2).
  f_equal. revert H. generalize (list_ascii_of_string s1) (list_ascii_of_string s2).
  induction l as [|a l IH]; intros [|b l'] H; simpl in H; try discriminate;
    [reflexivity|].
  injection H as Hab H. f_equal; [|now apply IH].
  rewrite <- (ascii_N_embedding a), <- (ascii_N_embedding b). now rewrite Hab.
Qed.

Lemma split_at_first {A} (x : A) a : forall c b d,
  ~ In x a -> ~ In x c -> a ++ x :: b = c ++ x :: d -> a = c /\ b = d.
Proof.
  induction a as [|y a IH]; intros [|z c] b d Ha Hc H; simpl in H.
  - injection H as ->. split; reflexivity.
  - injection H as -> _. exfalso. apply Hc. now left.
  - injection H as -> _. exfalso. apply Ha. now left.
  - injection H as -> H. destruct (IH c b d) as [-> ->]; try assumption.
    + intros Hin. apply Ha. now right.
    + intros Hin. apply Hc. now right.
    + split; reflexivity.
Qed.

Lemma generated_id_inj now1 now2 count1 count2 :
  generated_id now1 count1 = generated_id now2 count2 ->
  now1 = now2 /\ count1 = count2.
Proof.
  unfold generated_id. intros H. apply app_inv_head in H.
  change (units "_") with [95%N] in H.
  apply split_at_first in H as [Hn Hc].
  - apply units_inj, (inj pretty) in Hn.
    apply units_inj, (inj pretty) in Hc. split; [exact Hn | lia].
  - intros Hin. apply decimal_digits in Hin. lia.
  - intros Hin. apply decimal_digits in Hin. lia.
Qed.

End ExtractProperties.

End ToolCallingProperties.

Section AcceptedProperties.
Import Dialogs ToolCalling ToolCallReading.
Context {Number : Type}.
Variable number_truthy : Number -> bool.
Variable JSON_parse : jsstring -> option (Json (Number := Number)).
Variable Date_now : nat -> N.

Lemma parse_call_accepted i count body :
  match parse_call number_truthy JSON_parse Date_now i count body with
  | Some call =>
      accepted number_truthy JSON_parse body = Some (name call, arguments call)
      /\ id call
         = match own_id number_truthy JSON_parse body with
           | Some v => v
           | None => JString (generated_id (Date_now i) count)
           end
  | None => accepted number_truthy JSON_parse body = None
  end.
Proof.
  unfold parse_call, accepted, own_id, json_text.
  destruct (JSON_parse _) as [[| | | | |fields]|]; try reflexivity.
  destruct (field (units "name") fields) as [n|]; [|reflexivity].
  destruct (field (units "arguments") fields) as [a|]; [|reflexivity].
  destruct (truthy number_truthy (Some n) && truthy number_truthy (Some a));
    [|reflexivity].
  cbn [name arguments id]. split; [reflexivity|].
  destruct (truthy number_truthy (field (units "id") fields)) eqn:Hid;
    [|reflexivity].
  destruct (field (units "id") fields); [reflexivity | discriminate Hid].
Qed.

(** The calls pushed by the loop: the accepted bodies, in order, behind the
    calls already there; the ids are the bodies' own or generated from the
    number of calls pushed before. *)
Lemma collect_accepted bs : forall i acc,
  exists more,
    collect number_truthy JSON_parse Date_now i acc bs = acc ++ more
    /\ List.map (fun call => (name call, arguments call)) more
       = omap (accepted number_truthy JSON_parse) bs
    /\ (forall k call, more !! k = Some call ->
          exists body j,
            bs !! j = Some body /\ (k <= j)%nat
            /\ id call
               = match own_id number_truthy JSON_parse body with
                 | Some v => v
                 | None =>
                     JString (generated_id (Date_now (i + j)) (length acc + k))
                 end).
Proof.
  induction bs as [|body bs IH]; intros i acc; simpl.
  - exists []. rewrite app_nil_r. split; [reflexivity|].
    split; [reflexivity|]. intros k call Hk. discriminate Hk.
  - pose proof (parse_call_accepted i (length acc) body) as Hp.
    destruct (parse_call _ _ _ i (length acc) body) as [call|].
    + destruct Hp as [Hacc Hid]. rewrite Hacc.
      destruct (IH (S i) (acc ++ [call])) as (more & Heq & Hmap & Hids).
      exists (call :: more). rewrite Heq, <- List.app_assoc.
      split; [reflexivity|]. split; [simpl; now rewrite Hmap|].
      intros [|k] c Hk.
      * injection Hk as <-. exists body, O. split; [reflexivity|].
        split; [lia|]. now rewrite !Nat.add_0_r.
      * destruct (Hids k c Hk) as (b & j & Hj & Hkj & Hc).
        exists b, (S j). split; [exact Hj|]. split; [lia|].
        rewrite Hc. rewrite length_app. cbn [length].
        now replace (S i + j)%nat with (i + S j)%nat by lia;
          replace (length acc + 1 + k)%nat with (length acc + S k)%nat by lia.
    + rewrite Hp.
      destruct (IH (S i) acc) as (more & Heq & Hmap & Hids).
      exists more. split; [exact Heq|]. split; [exact Hmap|].
      intros k c Hk. destruct (Hids k c Hk) as (b & j & Hj & Hkj & Hc).
      exists b, (S j). split; [exact Hj|]. split; [lia|].
      rewrite Hc. now replace (S i + j)%nat with (i + S j)%nat by lia.
Qed.


(** When no body of the text brings an id of its own, the ids given to the
    calls extracted from it are pairwise different, even when the clock does
    not move. *)
Theorem generated_ids_are_distinct content :
  (forall body, In body (bodies content) ->
                own_id number_truthy JSON_parse body = None) ->
  NoDup (id <$> extractToolCalls number_truthy JSON_parse Date_now content).
Proof.
  intros Hnone. unfold extractToolCalls.
  destruct (collect_accepted (bodies content) O []) as (more & -> & _ & Hids).
  cbn [app]. apply NoDup_alt. intros j k x Hj Hk.
  rewrite list_lookup_fmap in Hj, Hk.
  destruct (more !! j) as [c1|] eqn:H1; [|discriminate].
  destruct (more !! k) as [c2|] eqn:H2; [|discriminate].
  injection Hj as Hj. injection Hk as Hk.
  destruct (Hids j c1 H1) as (b1 & j1 & Hb1 & _ & Hid1).
  destruct (Hids k c2 H2) as (b2 & j2 & Hb2 & _ & Hid2).
  rewrite Hnone in Hid1
    by (apply list_elem_of_In; eapply list_elem_of_lookup_2, Hb1).
  rewrite Hnone in Hid2
    by (apply list_elem_of_In; eapply list_elem_of_lookup_2, Hb2).
  cbn [length Nat.add] in Hid1, Hid2.
  assert (Hg : generated_id (Date_now j1) j = generated_id (Date_now j2) k)
    by congruence.
  now apply generated_id_inj in Hg as [_ Hg].
Qed.

End AcceptedProperties.

(** On a reply with a good call, a body that is no JSON and a good call with
    text around its braces, the two good calls are extracted, with the ids
    [call_0_0] and [call_0_1] when the clock stands at 0. *)
Example three_bodies_two_calls :
  ToolCalling.bodies ToolCallReading.three_bodies
  = [ToolCallReading.scan_call; Dialogs.units "not json";
     Dialogs.units " run " ++ ToolCallReading.scan_call ++ Dialogs.units " now "]
  /\ List.map ToolCalling.id
       (ToolCalling.extractToolCalls (fun n : N => negb (n =? 0)%N)
          ToolCallReading.parse_examples (fun _ => 0%N)
          ToolCallReading.three_bodies)
     = [ToolCalling.JString (Dialogs.units "call_0_0");
        ToolCalling.JString (Dialogs.units "call_0_1")].
Proof. split; vm_compute; reflexivity. Qed.

Lemma parse_examples_without_id body :
  ToolCallReading.own_id (fun n : N => negb (n =? 0)%N)
    ToolCallReading.parse_examples body = None.
Proof.
  unfold ToolCallReading.own_id, ToolCallReading.parse_examples.
  destruct (bool_decide _); reflexivity.
Qed.

Lemma generated_ids_are_distinct_witness :
  NoDup (ToolCalling.id
           <$> ToolCalling.extractToolCalls (fun n : N => negb (n =? 0)%N)
                 ToolCallReading.parse_examples (fun _ => 0%N)
                 ToolCallReading.three_bodies).
Proof.
  apply (generated_ids_are_distinct (fun n : N => negb (n =? 0)%N)
           ToolCallReading.parse_examples (fun _ => 0%N)
           ToolCallReading.three_bodies).
  intros body _. apply parse_examples_without_id.
Defined.


Lemma nothing_found_without_both_tags_witness :
  ToolCalling.detectToolCall (Dialogs.units "no call here <tool_call>") = false
  /\ ToolCalling.extractToolCalls (fun n : N => negb (n =? 0)%N)
       ToolCalling.toy_parse (fun _ => 0%N)
       (Dialogs.units "no call here <tool_call>") = [].
Proof.
  split; [vm_compute; reflexivity|].
  apply (nothing_found_without_both_tags (fun n : N => negb (n =? 0)%N)
           ToolCalling.toy_parse (fun _ => 0%N)
           (Dialogs.units "no call here <tool_call>")).
  vm_compute; reflexivity.
Defined.

(** ** Examples of [ResizeOperation::execute] and of the platform wrappers *)

Lemma execute_success_iff_committed_witness :
  Engine.result_of DiskWorld.tools DiskWorld.shrink_d
    (DiskWorld.initial_world DiskWorld.disk_d DiskWorld.no_faults)
  = inr Engine.success
  /\ Engine.percentages
       (Engine.trace_of DiskWorld.tools DiskWorld.shrink_d
          (DiskWorld.initial_world DiskWorld.disk_d DiskWorld.no_faults))
     = [5; 10; 15; 20; 60; 70; 95; 100]
  /\ Reading.rollbacks
       (Engine.trace_of DiskWorld.tools DiskWorld.shrink_d
          (DiskWorld.initial_world DiskWorld.disk_d DiskWorld.no_faults))
     = O.
Proof.
  assert (H : Engine.result_of DiskWorld.tools DiskWorld.shrink_d
                (DiskWorld.initial_world DiskWorld.disk_d DiskWorld.no_faults)
              = inr Engine.success) by (vm_compute; reflexivity).
  split; [exact H|].
  destruct (execute_success_iff_committed DiskWorld.tools DiskWorld.shrink_d
              (DiskWorld.initial_world DiskWorld.disk_d DiskWorld.no_faults))
    as [_ Hthen].
  destruct (Hthen H) as (Hp & _ & Hr).
  split; [rewrite Hp; vm_compute; reflexivity | exact Hr].
Defined.

Lemma rollback_only_on_open_transaction_witness :
  In Engine.Rollback
     (Engine.trace_of DiskWorld.tools DiskWorld.shrink_d
        (DiskWorld.initial_world DiskWorld.disk_d DiskWorld.table_failure))
  /\ In Engine.TransactionOpen
       (Engine.phases
          (Engine.trace_of DiskWorld.tools DiskWorld.shrink_d
             (DiskWorld.initial_world DiskWorld.disk_d DiskWorld.table_failure))).
Proof.
  assert (H : In Engine.Rollback
                (Engine.trace_of DiskWorld.tools DiskWorld.shrink_d
                   (DiskWorld.initial_world DiskWorld.disk_d
                      DiskWorld.table_failure)))
    by (vm_compute; repeat (first [left; reflexivity | right])).
  split; [exact H|].
  destruct (rollback_only_on_open_transaction DiskWorld.tools DiskWorld.shrink_d
              (DiskWorld.initial_world DiskWorld.disk_d DiskWorld.table_failure))
    as (_ & Hopen & _).
  exact (proj1 (Hopen H)).
Defined.

Lemma resize_tools_get_safe_size_witness :
  In (60 * GB)
     (Reading.resize_sizes
        (Engine.trace_of DiskWorld.tools DiskWorld.shrink_d
           (DiskWorld.initial_world DiskWorld.disk_d DiskWorld.no_faults)))
  /\ fst (DiskWorld.calculate_safe_resize_size DiskWorld.shrink_d
            (DiskWorld.initial_world DiskWorld.disk_d DiskWorld.no_faults))
     = inr (60 * GB).
Proof.
  assert (H : In (60 * GB)
                (Reading.resize_sizes
                   (Engine.trace_of DiskWorld.tools DiskWorld.shrink_d
                      (DiskWorld.initial_world DiskWorld.disk_d
                         DiskWorld.no_faults))))
    by (vm_compute; left; reflexivity).
  split; [exact H|].
  exact (resize_tools_get_safe_size DiskWorld.tools DiskWorld.shrink_d
           (DiskWorld.initial_world DiskWorld.disk_d DiskWorld.no_faults)
           (60 * GB) H).
Defined.

Lemma rollback_answer_replaces_error_witness :
  In Engine.Rollback
     (Engine.trace_of DiskWorld.tools DiskWorld.shrink_d
        (DiskWorld.initial_world DiskWorld.disk_d DiskWorld.table_failure))
  /\ exists w1 transaction w2 w3,
       DiskWorld.transaction_begin DiskWorld.shrink_d w1 = (inr transaction, w2)
       /\ Engine.result_of DiskWorld.tools DiskWorld.shrink_d
            (DiskWorld.initial_world DiskWorld.disk_d DiskWorld.table_failure)
          = inl (fst (DiskWorld.transaction_rollback transaction w3))
       /\ Engine.world_of DiskWorld.tools DiskWorld.shrink_d
            (DiskWorld.initial_world DiskWorld.disk_d DiskWorld.table_failure)
          = snd (DiskWorld.transaction_rollback transaction w3).
Proof.
  assert (H : In Engine.Rollback
                (Engine.trace_of DiskWorld.tools DiskWorld.shrink_d
                   (DiskWorld.initial_world DiskWorld.disk_d
                      DiskWorld.table_failure)))
    by (vm_compute; repeat (first [left; reflexivity | right])).
  split; [exact H|].
  exact (rollback_answer_replaces_error DiskWorld.tools DiskWorld.shrink_d
           (DiskWorld.initial_world DiskWorld.disk_d DiskWorld.table_failure) H).
Defined.

Lemma size_arguments_round_down_witness :
  (3 * 1048576 <= 3670016 < (3 + 1) * 1048576)%N
  /\ Platform.megabytes 3670016 = "3M"
  /\ (3583 * 1024 <= 3670000 < (3583 + 1) * 1024)%N
  /\ Platform.kilobytes 3670000 = "3583K".
Proof.
  assert (Hm : (3 * 1048576 <= 3670016 < (3 + 1) * 1048576)%N) by lia.
  assert (Hk : (3583 * 1024 <= 3670000 < (3583 + 1) * 1024)%N) by lia.
  split; [exact Hm|]. split.
  - exact (proj2 (proj1 (size_arguments_round_down 3670016 3)) Hm).
  - split; [exact Hk|].
    exact (proj2 (proj2 (size_arguments_round_down 3670000 3583)) Hk).
Defined.

Lemma resize_ext4_unmounts_only_unmounted_witness :
  exists e rest,
    snd (snd (Platform.resize_ext4 Platform.scripted_output
                Platform.scripted_unmount false "/dev/sdb1" 3670016 true
                ([true; false], [])))
    = Platform.Ran (Platform.e2fsck "/dev/sdb1") e :: rest.
Proof.
  exact (proj2 (resize_ext4_unmounts_only_unmounted Platform.scripted_output
                  Platform.scripted_unmount false "/dev/sdb1" 3670016 true
                  [true; false])
           eq_refl eq_refl).
Defined.



(** ** The backup checklist over a whole session *)

Section ChecklistProperties.
Import Dialogs Checklist.

Lemma get_handleCheckChange key k checks :
  get key (handleCheckChange k checks)
  = if same_key key k then negb (get key checks) else get key checks.
Proof. destruct key, k; reflexivity. Qed.

Lemma get_checks_after key evs : forall checks,
  get key (checks_after checks evs)
  = xorb (get key checks) (Nat.odd (toggles key evs)).
Proof.
  induction evs as [|ev evs IH]; intros checks.
  - cbn. now rewrite xorb_false_r.
  - unfold checks_after in *. cbn [fold_left]. rewrite IH.
    destruct ev as [k| |]; cbn [backup_step fst toggles]; try reflexivity.
    rewrite get_handleCheckChange. destruct (same_key key k); [|reflexivity].
    rewrite Nat.odd_succ, <- Nat.negb_odd.
    destruct (get key checks), (Nat.odd (toggles key evs)); reflexivity.
Qed.

Lemma allChecked_get checks :
  allChecked checks = true <-> forall key, get key checks = true.
Proof.
  unfold allChecked, values. cbn [forallb]. rewrite !andb_true_iff. split.
  - intros (H1 & H2 & H3 & H4 & _) []; assumption.
  - intros H. repeat split.
    + apply (H HasBackup).
    + apply (H VerifiedBackup).
    + apply (H RecentBackup).
    + apply (H UnderstandsRisk).
Qed.

(** After any sequence of clicks on the dialog opened afresh, a box is
    checked exactly when it was clicked an odd number of times (the two
    buttons change no box), so that the continue button is alive, and a click
    on it fires [onConfirm], exactly when each of the four boxes was clicked
    an odd number of times. *)
Theorem continue_alive_iff_each_box_clicked_odd_times evs :
  (forall key,
     get key (checks_after initial_checks evs) = Nat.odd (toggles key evs))
  /\ (continue_disabled (checks_after initial_checks evs) = false
      <-> forall key, Nat.odd (toggles key evs) = true)
  /\ (snd (backup_step (checks_after initial_checks evs) ClickContinue)
      = [OnConfirm]
      <-> forall key, Nat.odd (toggles key evs) = true).
Proof.
  assert (Hget : forall key,
            get key (checks_after initial_checks evs)
            = Nat.odd (toggles key evs)).
  { intros key. rewrite get_checks_after. now destruct key. }
  assert (Hall : allChecked (checks_after initial_checks evs) = true
                 <-> forall key, Nat.odd (toggles key evs) = true).
  { rewrite allChecked_get. split; intros H key.
    - rewrite <- Hget. apply H.
    - rewrite Hget. apply H. }
  split; [exact Hget|]. split.
  - unfold continue_disabled. rewrite negb_false_iff. exact Hall.
  - rewrite <- Hall. cbn [backup_step snd].
    unfold continue_disabled, backup_handleConfirm.
    destruct (allChecked _); cbn; split; intros H; congruence.
Qed.

End ChecklistProperties.

Lemma continue_alive_iff_each_box_clicked_odd_times_witness :
  Dialogs.continue_disabled
    (Checklist.checks_after Dialogs.initial_checks
       (Dialogs.careful_user
        ++ [Dialogs.ToggleCheckbox Dialogs.RecentBackup])) = true.
Proof.
  destruct (continue_alive_iff_each_box_clicked_odd_times
              (Dialogs.careful_user
               ++ [Dialogs.ToggleCheckbox Dialogs.RecentBackup]))
    as (_ & Hdead & _).
  destruct (Dialogs.continue_disabled _) eqn:Hd; [reflexivity|].
  specialize (proj1 Hdead eq_refl Dialogs.RecentBackup). vm_compute.
  intros H. discriminate H.
Defined.
